(** * bubble-ai-backend: the mediation core, embedded and verified

    The development follows the JavaScript sources module by module:

    - [Semantic]      api/mcp-server.js, analyzeSemantics / detectIntent /
                      detectCategory
    - [RateLimiter]   api/mcp-server.js, checkRateLimit
    - [QueryCache]    api/mcp-server.js, searchQuery and the
                      get_cached_results tool
    - [Orchestrator]  MCPOrchestrator.checkHealth / executeSearch /
                      fallbackSearch
    - [Streaming]     the SSE streaming module: createStream, streamChunk,
                      closeStream, subscribeStream, handleSSE
    - [Stats]         api/mcp-analytics.js recordQuery and
                      StatsTracker.recordSearch

    Conventions.  Times are [Z] milliseconds; every [Date.now()] read is an
    explicit argument.  JavaScript strings are modelled by [string]; case
    folding and trimming act on the ASCII range.  A plain object or [Map]
    whose iteration order is never observed is a [gmap]; the query cache is
    an insertion-ordered association list because its eviction sorts the
    entries and takes the first one.  A plain object indexed with a name it
    inherits from [Object.prototype] gives the inherited value, not
    [undefined]: [JsObject] lists these names, and the rate limiter and the
    tool table are modelled with them. *)

From Stdlib Require Import Ascii ZArith QArith Qround Lia.
From stdpp Require Import gmap strings list pretty sorting.

#[local] Open Scope Z_scope.

(** ** Strings: the fragments of the JavaScript string API that are used *)

Module JsString.

Definition lower_ascii (c : ascii) : ascii :=
  let n := nat_of_ascii c in
  if bool_decide (65 ≤ n ≤ 90)%nat then ascii_of_nat (n + 32) else c.

(** [String.prototype.toLowerCase] *)
Fixpoint toLowerCase (s : string) : string :=
  match s with
  | EmptyString => EmptyString
  | String c r => String (lower_ascii c) (toLowerCase r)
  end.

(** White space as [trim] and the regular-expression class [\s] see it
    (ASCII range): space, TAB, LF, VT, FF, CR. *)
Definition is_white (c : ascii) : bool :=
  let n := nat_of_ascii c in
  bool_decide (n = 32 ∨ 9 ≤ n ≤ 13)%nat.

Fixpoint trimStart (s : string) : string :=
  match s with
  | String c r => if is_white c then trimStart r else s
  | EmptyString => EmptyString
  end.

(** [String.prototype.trim] *)
Definition trim (s : string) : string :=
  String.rev (trimStart (String.rev (trimStart s))).

Fixpoint startsWith (p s : string) : bool :=
  match p, s with
  | EmptyString, _ => true
  | String a p', String b s' => bool_decide (a = b) && startsWith p' s'
  | String _ _, EmptyString => false
  end.

(** [s.includes(p)]; also the meaning of matching [s] against a regular
    expression that is a plain word. *)
Fixpoint includes (p s : string) : bool :=
  startsWith p s ||
  match s with
  | EmptyString => false
  | String _ r => includes p r
  end.

Definition snoc (s : string) (c : ascii) : string := s +:+ String c EmptyString.

(** [s.split(sep)] for a one-character separator. *)
Fixpoint split_char_go (sep : ascii) (cur : string) (s : string) : list string :=
  match s with
  | EmptyString => [cur]
  | String c r =>
      if bool_decide (c = sep) then cur :: split_char_go sep EmptyString r
      else split_char_go sep (snoc cur c) r
  end.

Definition split_char (sep : ascii) (s : string) : list string :=
  split_char_go sep EmptyString s.

End JsString.

(** ** SemanticAnalyzer (api/mcp-server.js, lines 39-70) *)

Module Semantic.
Import JsString.

Inductive Intent := IQuestion | ISearch | ICurrent | IRanking | IGeneral.
Inductive Category := CTech | CAi | CBusiness | CNews | CGaming | CGeneral.

Record Semantics := mkSemantics {
  keywords : list string;
  intent : Intent;
  category : Category;
  raw : string;
}.

(** The pattern in the source is the regular-expression literal
    [/\\s+/]: an escaped backslash followed by one or more letters [s].
    [split_bs_s] is [String.prototype.split] for that pattern.  The flag
    tells that the previous characters were a match, whose greedy [s+]
    still absorbs the letters [s] that follow. *)
Definition backslash : ascii := ascii_of_nat 92.
Definition letter_s : ascii := ascii_of_nat 115.

Fixpoint split_bs_s_go (in_sep : bool) (cur : string) (s : string) : list string :=
  match s with
  | EmptyString => [cur]
  | String c r =>
      if in_sep && bool_decide (c = letter_s) then split_bs_s_go true cur r
      else if bool_decide (c = backslash) then
        match r with
        | String c' r' =>
            if bool_decide (c' = letter_s)
            then cur :: split_bs_s_go true EmptyString r'
            else split_bs_s_go false (snoc cur c) r
        | EmptyString => split_bs_s_go false (snoc cur c) r
        end
      else split_bs_s_go false (snoc cur c) r
  end.

Definition split_bs_s (s : string) : list string :=
  split_bs_s_go false EmptyString s.

Fixpoint has_backslash (s : string) : bool :=
  match s with
  | EmptyString => false
  | String c r => bool_decide (c = backslash) || has_backslash r
  end.

Definition any_includes (words : list string) (q : string) : bool :=
  existsb (fun w => includes w q) words.

Definition detectIntent (query : string) : Intent :=
  let q := toLowerCase query in
  if any_includes ["how"; "why"; "what"; "when"; "where"; "who"] q then IQuestion
  else if any_includes ["find"; "search"; "look"; "locate"] q then ISearch
  else if any_includes ["latest"; "new"; "recent"; "today"] q then ICurrent
  else if any_includes ["best"; "top"; "rank"; "compare"] q then IRanking
  else IGeneral.

Definition categories : list (Category * list string) :=
  [ (CTech, ["javascript"; "python"; "react"; "nodejs"; "code"; "programming"; "api"; "database"]);
    (CAi, ["ai"; "machine"; "learning"; "model"; "neural"; "llm"; "gpt"]);
    (CBusiness, ["startup"; "business"; "marketing"; "sales"; "growth"; "vc"; "funding"]);
    (CNews, ["news"; "breaking"; "today"; "current"; "latest"; "happening"]);
    (CGaming, ["game"; "roblox"; "minecraft"; "unity"; "unreal"; "steam"; "esports"]) ].

Definition detectCategory (kws : list string) : Category :=
  match List.find (fun cw => existsb (fun k => bool_decide (k ∈ snd cw)) kws) categories with
  | Some cw => fst cw
  | None => CGeneral
  end.

Definition analyzeSemantics (query : string) : Semantics :=
  let kws := List.filter (fun w => bool_decide (2 < String.length w)%nat)
                         (split_bs_s (toLowerCase query)) in
  {| keywords := kws; intent := detectIntent query;
     category := detectCategory kws; raw := query |}.

(** The keyword list in the words of the specification: lower-case the
    query, split it on runs of white space, drop tokens of length at most
    two.  [split_white] is [split(/\s+/)]. *)
Fixpoint split_white_go (in_sep : bool) (cur : string) (s : string) : list string :=
  match s with
  | EmptyString => [cur]
  | String c r =>
      if is_white c then
        if in_sep then split_white_go true cur r
        else cur :: split_white_go true EmptyString r
      else split_white_go false (snoc cur c) r
  end.

Definition split_white (s : string) : list string :=
  split_white_go false EmptyString s.

Definition spec_keywords (query : string) : list string :=
  List.filter (fun w => bool_decide (2 < String.length w)%nat)
              (split_white (toLowerCase query)).

End Semantic.

(** ** Plain objects used as maps *)

Module JsObject.

(** The property names every plain object inherits from [Object.prototype].
    [MCP_TOOLS] and [rateLimitTracker] are plain objects: indexed with one
    of these names they give an inherited value (a function, or the
    prototype itself), not [undefined]. *)
Definition object_prototype_names : list string :=
  ["constructor"; "__defineGetter__"; "__defineSetter__"; "hasOwnProperty";
   "__lookupGetter__"; "__lookupSetter__"; "isPrototypeOf"; "propertyIsEnumerable";
   "toString"; "valueOf"; "__proto__"; "toLocaleString"].

End JsObject.

(** ** RateLimiter (api/mcp-server.js, lines 19-37) *)

Module RateLimiter.

Definition RATE_LIMIT : nat := 100.

(** The object returned by [checkRateLimit].  [resetAt] is [None] where the
    source would compute [undefined + 600000]; that needs an empty window of
    length at least [RATE_LIMIT] and never happens. *)
Record RateResult := mkRate {
  allowed : bool;
  remaining : Z;
  resetAt : option Z;
}.

(** [rateLimitTracker]: client id to the array of admitted timestamps.
    The own properties of the object; no call creates one under an
    inherited name (see [checkRateLimit_any]). *)
Abbreviation Tracker := (gmap string (list Z)).

(** Lines 21-36 for a client id that names no inherited property, so that
    [rateLimitTracker[clientId]] is the own property or [undefined]. *)
Definition checkRateLimit (now : Z) (clientId : string) (tracker : Tracker)
  : RateResult * Tracker :=
  let windowStart := now - 600000 in
  let w := filter (fun t => windowStart < t) (default [] (tracker !! clientId)) in
  if bool_decide (RATE_LIMIT ≤ length w)%nat then
    ({| allowed := false; remaining := 0;
        resetAt := (fun t => t + 600000) <$> head w |},
     <[clientId := w]> tracker)
  else
    let w' := w ++ [now] in
    ({| allowed := true; remaining := Z.of_nat RATE_LIMIT - Z.of_nat (length w');
        resetAt := Some (now + 600000) |},
     <[clientId := w']> tracker).

(** What a call of [checkRateLimit] does: it returns its object or throws. *)
Inductive Admission :=
  | Decided (r : RateResult)
  | TypeError (message : string).

(** [checkRateLimit] for every client id.  For a client id that names an
    inherited property, [rateLimitTracker[clientId]] is the inherited value:
    it is truthy, so line 25 does not run, and it has no [filter] method, so
    line 29 throws before anything is stored. *)
Definition checkRateLimit_any (now : Z) (clientId : string) (tracker : Tracker)
  : Admission * Tracker :=
  if bool_decide (clientId ∈ JsObject.object_prototype_names) then
    (TypeError "rateLimitTracker[clientId].filter is not a function", tracker)
  else
    let '(r, tracker1) := checkRateLimit now clientId tracker in
    (Decided r, tracker1).

(** A run of admission calls [(clientId, now)], in order, with the results,
    by clients whose ids name no inherited property. *)
Fixpoint admitAll (calls : list (string * Z)) (tracker : Tracker)
  : list RateResult * Tracker :=
  match calls with
  | [] => ([], tracker)
  | (clientId, now) :: rest =>
      let '(r, tracker1) := checkRateLimit now clientId tracker in
      let '(rs, tracker2) := admitAll rest tracker1 in
      (r :: rs, tracker2)
  end.

(** What the module state looks like while the clock does not run
    backwards: every window is sorted, holds at most [RATE_LIMIT] entries and
    nothing from the future. *)
Definition tracker_ok (clock : Z) (tracker : Tracker) : Prop :=
  ∀ clientId w, tracker !! clientId = Some w →
    StronglySorted Z.le w ∧ (length w ≤ RATE_LIMIT)%nat ∧ Forall (fun t => t ≤ clock) w.

End RateLimiter.

(** ** QueryCache and semantic index (api/mcp-server.js, lines 72-150, 204-230) *)

Module QueryCache.
Import JsString Semantic.

Definition CACHE_TTL : Z := 300000.
Definition MAX_RESULTS : Z := 20.
Definition MAX_ENTRIES : nat := 1000.

(** One element of [data.results] as the upstream API sends it. *)
Record RawResult := mkRaw {
  raw_title : string;
  raw_url : string;
  raw_snippet : string;
}.

Record ResultItem := mkItem {
  id : string;
  title : string;
  url : string;
  snippet : string;
  relevance : Q;
  domain : string;
}.

Record CacheEntry := mkEntry {
  query : string;
  results : list ResultItem;
  timestamp : Z;
  semantics : Semantics;
  clientId : string;
  hitCount : Z;
}.

(** [queryCache] is a [Map]: the entries in insertion order, one per key. *)
Abbreviation Cache := (list (string * CacheEntry)).

Record State := mkState {
  queryCache : Cache;
  semanticIndex : gmap string (list string);
}.

Definition init : State := {| queryCache := []; semanticIndex := ∅ |}.

(** [Map.prototype.get] *)
Fixpoint cache_get (key : string) (c : Cache) : option CacheEntry :=
  match c with
  | [] => None
  | (k, e) :: rest => if bool_decide (k = key) then Some e else cache_get key rest
  end.

(** [Map.prototype.set]: an existing key keeps its position and gets the
    new value, a new key goes to the end. *)
Fixpoint cache_set (key : string) (e : CacheEntry) (c : Cache) : Cache :=
  match c with
  | [] => [(key, e)]
  | (k, e') :: rest =>
      if bool_decide (k = key) then (k, e) :: rest else (k, e') :: cache_set key e rest
  end.

(** [Map.prototype.delete] *)
Definition cache_delete (key : string) (c : Cache) : Cache :=
  filter (fun p => p.1 ≠ key) c.

(** [Array.prototype.sort] with the comparator
    [(a, b) => a[1].timestamp - b[1].timestamp]; the sort is stable. *)
Fixpoint insert_by_timestamp (p : string * CacheEntry) (sorted : Cache) : Cache :=
  match sorted with
  | [] => [p]
  | q :: rest =>
      if bool_decide (timestamp p.2 ≤ timestamp q.2) then p :: q :: rest
      else q :: insert_by_timestamp p rest
  end.

Fixpoint sort_by_timestamp (c : Cache) : Cache :=
  match c with
  | [] => []
  | p :: rest => insert_by_timestamp p (sort_by_timestamp rest)
  end.

(** Lines 125-130: "Cleanup cache if too large". *)
Definition evictOldest (c : Cache) : Cache :=
  if bool_decide (MAX_ENTRIES < length c)%nat then
    match sort_by_timestamp c with
    | oldest :: _ => cache_delete oldest.1 c
    | [] => c
    end
  else c.

(** Lines 117-123: "Add to semantic index". *)
Definition indexKeywords (cacheKey : string) (kws : list string)
    (index : gmap string (list string)) : gmap string (list string) :=
  foldl (fun idx kw => <[kw := default [] (idx !! kw) ++ [cacheKey]]> idx) index kws.

(** What the awaited [fetch] and [response.json()] deliver. *)
Inductive Upstream :=
  | FetchRejects (message : string)
  | InvalidJson (message : string)
  | Body (success : bool) (error : string) (items : option (list RawResult)).

(** The environment of one call: the clock readings in program order and
    the upstream behaviour. *)
Record Env := mkEnv {
  now_lookup : Z;
  now_age : Z;
  upstream : Upstream;
  now_store : Z;
  now_return : Z;
}.

Inductive Source := SrcCache | SrcLive | SrcError.

Inductive Response :=
  | FromCache (cached : CacheEntry) (cacheAge : Z)
  | Live (q : string) (rs : list ResultItem) (count : nat) (sem : Semantics) (ts : Z)
  | Failed (q : string) (message : string) (ts : Z).

Definition source (r : Response) : Source :=
  match r with
  | FromCache _ _ => SrcCache
  | Live _ _ _ _ _ => SrcLive
  | Failed _ _ _ => SrcError
  end.

Definition response_results (r : Response) : list ResultItem :=
  match r with
  | FromCache cached _ => results cached
  | Live _ rs _ _ _ => rs
  | Failed _ _ _ => []
  end.

Section WithUrl.

(** [new URL(u).hostname]; [None] when the constructor throws. *)
Context (hostname : string → option string).

(** Lines 96-103: [data.results.map((r, idx) => ...)], from index [idx] on. *)
Fixpoint build_results (cacheKey : string) (idx : nat) (items : list RawResult)
  : option (list ResultItem) :=
  match items with
  | [] => Some []
  | r :: rest =>
      match hostname (raw_url r) with
      | None => None
      | Some host =>
          match build_results cacheKey (S idx) rest with
          | None => None
          | Some tl =>
              Some ({| id := cacheKey +:+ "_" +:+ pretty idx;
                       title := raw_title r;
                       url := raw_url r;
                       snippet := raw_snippet r;
                       relevance := (inject_Z (MAX_RESULTS - Z.of_nat idx) / inject_Z MAX_RESULTS)%Q;
                       domain := host |} :: tl)
          end
      end
  end.

(** Lines 78-87: the freshness check. *)
Definition lookup_fresh (cacheKey : string) (now : Z) (c : Cache) : option CacheEntry :=
  match cache_get cacheKey c with
  | Some cached => if bool_decide (now - timestamp cached < CACHE_TTL) then Some cached else None
  | None => None
  end.

(** Lines 89-139, the [try] block; [inl] is the message of the thrown
    error.  The texts of the engine's own [TypeError]s are placeholders. *)
Definition live_search (q cid cacheKey : string) (sem : Semantics) (env : Env) (st : State)
  : string + (Response * State) :=
  match upstream env with
  | FetchRejects msg => inl msg
  | InvalidJson msg => inl msg
  | Body success err items =>
      if negb success then inl err
      else match items with
      | None => inl "data.results is undefined"
      | Some raws =>
          match build_results cacheKey 0 raws with
          | None => inl "Invalid URL"
          | Some rs =>
              let cacheEntry :=
                {| query := q; results := rs; timestamp := now_store env;
                   semantics := sem; clientId := cid; hitCount := 0 |} in
              let cache1 := cache_set cacheKey cacheEntry (queryCache st) in
              let index1 := indexKeywords cacheKey (keywords sem) (semanticIndex st) in
              inr (Live q rs (length rs) sem (now_return env),
                   {| queryCache := evictOldest cache1; semanticIndex := index1 |})
          end
      end
  end.

Definition searchQuery (q cid : string) (env : Env) (st : State) : Response * State :=
  let cacheKey := trim (toLowerCase q) in
  let sem := analyzeSemantics q in
  match lookup_fresh cacheKey (now_lookup env) (queryCache st) with
  | Some cached => (FromCache cached (now_age env - timestamp cached), st)
  | None =>
      match live_search q cid cacheKey sem env st with
      | inr out => out
      | inl message => (Failed q message (now_return env), st)
      end
  end.

(** The [get_cached_results] tool: returns the entry whatever its age,
    after incrementing its hit count in place. *)
Record CachedLookup := mkCachedLookup {
  found : CacheEntry;
  age : Z;
  isStale : bool;
}.

Definition getCachedResults (q : string) (now now' : Z) (st : State)
  : option CachedLookup * State :=
  let cacheKey := trim (toLowerCase q) in
  match cache_get cacheKey (queryCache st) with
  | None => (None, st)
  | Some cached =>
      let cached' :=
        {| query := query cached; results := results cached;
           timestamp := timestamp cached; semantics := semantics cached;
           clientId := clientId cached; hitCount := hitCount cached + 1 |} in
      (Some {| found := cached'; age := now - timestamp cached;
               isStale := bool_decide (CACHE_TTL < now' - timestamp cached) |},
       {| queryCache := cache_set cacheKey cached' (queryCache st);
          semanticIndex := semanticIndex st |})
  end.

(** The invariant of the cache: one entry per key, at most 1000 entries. *)
Definition cache_ok (c : Cache) : Prop :=
  NoDup c.*1 ∧ (length c ≤ MAX_ENTRIES)%nat.

(** The three ways in which the upstream call of the claim fails. *)
Definition upstream_fails (u : Upstream) : Prop :=
  match u with
  | FetchRejects _ | InvalidJson _ => True
  | Body success _ _ => success = false
  end.

(** The calls that touch the cache, and a run of them. *)
Inductive Op :=
  | OpSearch (q cid : string) (env : Env)
  | OpGetCached (q : string) (now now' : Z).

Definition step (op : Op) (st : State) : State :=
  match op with
  | OpSearch q cid env => (searchQuery q cid env st).2
  | OpGetCached q now now' => (getCachedResults q now now' st).2
  end.

Definition run (ops : list Op) (st : State) : State :=
  foldl (fun s op => step op s) st ops.

End WithUrl.

End QueryCache.

(** ** ProviderOrchestrator (class MCPOrchestrator) *)

Module Orchestrator.

Record Server := mkServer {
  name : string;
  type : string;
  url : string;
  command : string;
  priority : nat;
  capabilities : list string;
}.

Inductive Status := Healthy | Unhealthy | NotFound.

(** A value of [this.serverHealth]. *)
Record Health := mkHealth {
  status : Status;
  error : option string;
  timestamp : Z;
}.

(** The HTTP requests the class sends through axios. *)
Inductive Call :=
  | HealthGet (target : string)
  | SearchPost (target : string) (query : string).

Inductive Reply :=
  | Ok (data : string)
  | Err (message : string).

(** The network: the reply to a request, given the requests sent before. *)
Definition Net := list Call → Call → Reply.

(** The object state and the trace of requests sent so far. *)
Record World := mkWorld {
  servers : gmap string Server;
  serverHealth : gmap string Health;
  calls : list Call;
}.

(** A state monad over [World] for the asynchronous methods. *)
Definition M (A : Type) : Type := World → A * World.

#[export] Instance M_ret : MRet M := fun A a w => (a, w).

#[export] Instance M_bind : MBind M :=
  fun A B k m w => let '(a, w1) := m w in k a w1.

Definition request (net : Net) (c : Call) : M Reply :=
  fun w => (net (calls w) c,
            {| servers := servers w; serverHealth := serverHealth w; calls := calls w ++ [c] |}).

Definition setHealth (serverName : string) (h : Health) : M unit :=
  fun w => (tt, {| servers := servers w;
                   serverHealth := <[serverName := h]> (serverHealth w);
                   calls := calls w |}).

Definition getServer (serverName : string) : M (option Server) :=
  fun w => (servers w !! serverName, w).

(** [initializeServers], with the two URLs taken from the environment. *)
Definition initializeServers (webUrl bubbleUrl : string) : World :=
  {| servers :=
       <["bubbleSearch" := mkServer "bubble-search" "rest" bubbleUrl "npm run dev" 2
                              ["search"; "free-tier"]]>
       (<["webSearchMCP" := mkServer "web-search-mcp" "mcp" webUrl "web-search-mcp" 1
                              ["search"; "summarize"]]> ∅);
     serverHealth := ∅;
     calls := [] |}.

(** The object returned by [checkHealth]. *)
Record HealthReport := mkReport {
  report_status : Status;
  report_server : string;
  report_data : option string;
  report_error : option string;
}.

Definition checkHealth (net : Net) (now : Z) (serverName : string) : M HealthReport :=
  server ← getServer serverName;
  match server with
  | None => mret (mkReport NotFound serverName None None)
  | Some srv =>
      reply ← request net (HealthGet (url srv +:+ "/health"));
      match reply with
      | Ok data =>
          _ ← setHealth serverName (mkHealth Healthy None now);
          mret (mkReport Healthy serverName (Some data) None)
      | Err message =>
          _ ← setHealth serverName (mkHealth Unhealthy (Some message) now);
          mret (mkReport Unhealthy serverName None (Some message))
      end
  end.

(** The object returned by [executeSearch] and [fallbackSearch]. *)
Record SearchResult := mkResult {
  success : bool;
  server : option string;
  results : option string;
  failover : bool;
  primaryServerFailed : option string;
  result_error : option string;
  details : option string;
  result_timestamp : option Z;
}.

Definition fallbackSearch (net : Net) (now : Z) (query primaryServer : string)
  : M SearchResult :=
  let alternativeServer :=
    if bool_decide (primaryServer = "webSearchMCP") then "bubbleSearch" else "webSearchMCP" in
  alt ← getServer alternativeServer;
  match alt with
  | None =>
      mret (mkResult false None None false None (Some "All search servers unavailable")
             (Some "Cannot read properties of undefined") None)
  | Some srv =>
      reply ← request net (SearchPost (url srv +:+ "/search") query);
      match reply with
      | Ok data =>
          mret (mkResult true (Some alternativeServer) (Some data) true (Some primaryServer)
                 None None (Some now))
      | Err message =>
          mret (mkResult false None None false None (Some "All search servers unavailable")
                 (Some message) None)
      end
  end.

(** [executeSearch(query, { server })]; [server] defaults to
    "webSearchMCP" at the call site. *)
Definition executeSearch (net : Net) (now : Z) (query serverName : string)
  : M SearchResult :=
  selectedServer ← getServer serverName;
  match selectedServer with
  | None => fallbackSearch net now query serverName
  | Some srv =>
      health ← checkHealth net now serverName;
      match report_status health with
      | Healthy =>
          reply ← request net (SearchPost (url srv +:+ "/search") query);
          match reply with
          | Ok data =>
              mret (mkResult true (Some serverName) (Some data) false None None None (Some now))
          | Err _ => fallbackSearch net now query serverName
          end
      | _ => fallbackSearch net now query serverName
      end
  end.

(** The requested provider does not serve the request: its health probe
    fails, or the probe succeeds and the search request that follows it
    fails. *)
Definition primary_fails (net : Net) (w : World) (webUrl query : string) : Prop :=
  match net (calls w) (HealthGet (webUrl +:+ "/health")) with
  | Err _ => True
  | Ok _ =>
      ∃ message,
        net (calls w ++ [HealthGet (webUrl +:+ "/health")])
            (SearchPost (webUrl +:+ "/search") query) = Err message
  end.

(** The requests [executeSearch] sends to the requested provider. *)
Definition primary_requests (net : Net) (w : World) (webUrl query : string) : list Call :=
  match net (calls w) (HealthGet (webUrl +:+ "/health")) with
  | Err _ => [HealthGet (webUrl +:+ "/health")]
  | Ok _ => [HealthGet (webUrl +:+ "/health"); SearchPost (webUrl +:+ "/search") query]
  end.

End Orchestrator.

(** ** StreamBroker (the SSE streaming module) *)

Module Streaming.

Inductive StreamStatus := Active | Closed.

Record Chunk := mkChunk {
  chunk_type : string;
  chunk_data : string;
  chunk_timestamp : Z;
}.

(** One server-sent event as the two [res.write] calls of the SSE handler
    produce it: the [event:] line, absent in the "Stream not found" answer,
    and the [data:] line. *)
Record Frame := mkFrame {
  frame_event : option string;
  frame_data : string;
}.

Definition frame_of (c : Chunk) : Frame :=
  {| frame_event := Some (chunk_type c); frame_data := chunk_data c |}.

(** An HTTP response object: what was written to it, and whether [end]
    was called.  Nothing is delivered through an ended response. *)
Record Response := mkResponse {
  written : list Frame;
  ended : bool;
}.

(** A listener is the closure created by [handleSSE]; it is identified by
    the response it writes to, a position in [responses]. *)
Record Stream := mkStream {
  id : string;
  clientId : string;
  query : string;
  created : Z;
  chunks : list Chunk;
  status : StreamStatus;
  listeners : list nat;
  closedAt : option Z;
  closeReason : option string;
}.

Record Metrics := mkMetrics {
  active : Z;
  total : Z;
  chunksStreamed : Z;
}.

Record State := mkState {
  activeStreams : gmap string Stream;
  streamMetrics : Metrics;
  responses : list Response;
}.

Definition init : State :=
  {| activeStreams := ∅; streamMetrics := mkMetrics 0 0 0; responses := [] |}.

(** [res.write] *)
Definition write (res : nat) (f : Frame) (rs : list Response) : list Response :=
  alter (fun r => if ended r then r else {| written := written r ++ [f]; ended := false |})
        res rs.

(** [res.end] *)
Definition end_response (res : nat) (rs : list Response) : list Response :=
  alter (fun r => {| written := written r; ended := true |}) res rs.

(** What the response [res] has received. *)
Definition received (res : nat) (st : State) : list Frame :=
  default [] (written <$> responses st !! res).

(** The id built by [createStream] from the clock and the random suffix. *)
Definition streamId_of (now : Z) (rnd : string) : string :=
  "stream_" +:+ pretty now +:+ "_" +:+ rnd.

Definition createStream (cid q : string) (now : Z) (rnd : string) (now' : Z) (st : State)
  : string * State :=
  let streamId := streamId_of now rnd in
  let stream :=
    {| id := streamId; clientId := cid; query := q; created := now'; chunks := [];
       status := Active; listeners := []; closedAt := None; closeReason := None |} in
  (streamId,
   {| activeStreams := <[streamId := stream]> (activeStreams st);
      streamMetrics := mkMetrics (active (streamMetrics st) + 1)
                                 (total (streamMetrics st) + 1)
                                 (chunksStreamed (streamMetrics st));
      responses := responses st |}).

(** [stream.listeners.forEach(callback => callback(chunk))] *)
Definition notify (ls : list nat) (c : Chunk) (rs : list Response) : list Response :=
  foldl (fun acc l => write l (frame_of c) acc) rs ls.

Definition streamChunk (streamId data chunkType : string) (now : Z) (st : State)
  : bool * State :=
  match activeStreams st !! streamId with
  | None => (false, st)
  | Some stream =>
      let chunk := {| chunk_type := chunkType; chunk_data := data; chunk_timestamp := now |} in
      let stream' :=
        {| id := id stream; clientId := clientId stream; query := query stream;
           created := created stream; chunks := chunks stream ++ [chunk];
           status := status stream; listeners := listeners stream;
           closedAt := closedAt stream; closeReason := closeReason stream |} in
      (true,
       {| activeStreams := <[streamId := stream']> (activeStreams st);
          streamMetrics := mkMetrics (active (streamMetrics st)) (total (streamMetrics st))
                                     (chunksStreamed (streamMetrics st) + 1);
          responses := notify (listeners stream) chunk (responses st) |})
  end.

(** [closeStream]; the deletion it schedules is the step [OpTimer] below. *)
Definition closeStream (streamId reason : string) (now : Z) (st : State) : bool * State :=
  match activeStreams st !! streamId with
  | None => (false, st)
  | Some stream =>
      let stream' :=
        {| id := id stream; clientId := clientId stream; query := query stream;
           created := created stream; chunks := chunks stream;
           status := Closed; listeners := listeners stream;
           closedAt := Some now; closeReason := Some reason |} in
      (true,
       {| activeStreams := <[streamId := stream']> (activeStreams st);
          streamMetrics := mkMetrics (active (streamMetrics st) - 1) (total (streamMetrics st))
                                     (chunksStreamed (streamMetrics st));
          responses := responses st |})
  end.

Definition getStream (streamId : string) (st : State) : option Stream :=
  activeStreams st !! streamId.

Definition subscribeStream (streamId : string) (callback : nat) (st : State) : bool * State :=
  match getStream streamId st with
  | None => (false, st)
  | Some stream =>
      let stream' :=
        {| id := id stream; clientId := clientId stream; query := query stream;
           created := created stream; chunks := chunks stream;
           status := status stream; listeners := listeners stream ++ [callback];
           closedAt := closedAt stream; closeReason := closeReason stream |} in
      (true,
       {| activeStreams := <[streamId := stream']> (activeStreams st);
          streamMetrics := streamMetrics st;
          responses := responses st |})
  end.

(** [JSON.stringify({ error: 'Stream not found' })] *)
Definition not_found_body : string :=
  let quote := String (ascii_of_nat 34) EmptyString in
  "{" +:+ quote +:+ "error" +:+ quote +:+ ":" +:+ quote +:+ "Stream not found" +:+ quote +:+ "}".

(** [handleSSE(req, res, streamId)] up to the registration of the
    disconnect handler; the handler itself is [disconnect]. *)
Definition handleSSE (res : nat) (streamId : string) (st : State) : State :=
  match getStream streamId st with
  | None =>
      {| activeStreams := activeStreams st;
         streamMetrics := streamMetrics st;
         responses :=
           end_response res
             (write res (mkFrame None not_found_body) (responses st)) |}
  | Some stream =>
      let replayed :=
        foldl (fun acc c => write res (frame_of c) acc) (responses st) (chunks stream) in
      (subscribeStream streamId res
         {| activeStreams := activeStreams st;
            streamMetrics := streamMetrics st;
            responses := replayed |}).2
  end.

(** The handler of the request's [close] event. *)
Definition disconnect (res : nat) (streamId : string) (now : Z) (st : State) : State :=
  let st1 := (closeStream streamId "client_disconnect" now st).2 in
  {| activeStreams := activeStreams st1;
     streamMetrics := streamMetrics st1;
     responses := end_response res (responses st1) |}.

(** What can happen to the module, one event at a time.  [OpSubscribe] is
    the "subscribe" action of the API handler: the HTTP server supplies a
    new response object and [handleSSE] runs on it.  [OpTimer] is the
    firing of a retention timer: [activeStreams.delete(streamId)]. *)
Inductive Op :=
  | OpCreate (cid q : string) (now : Z) (rnd : string) (now' : Z)
  | OpEmit (streamId data chunkType : string) (now : Z)
  | OpClose (streamId reason : string) (now : Z)
  | OpSubscribe (streamId : string)
  | OpDisconnect (res : nat) (streamId : string) (now : Z)
  | OpTimer (streamId : string).

Definition new_response (st : State) : State :=
  {| activeStreams := activeStreams st;
     streamMetrics := streamMetrics st;
     responses := responses st ++ [mkResponse [] false] |}.

Definition step (op : Op) (st : State) : State :=
  match op with
  | OpCreate cid q now rnd now' => (createStream cid q now rnd now' st).2
  | OpEmit streamId data chunkType now => (streamChunk streamId data chunkType now st).2
  | OpClose streamId reason now => (closeStream streamId reason now st).2
  | OpSubscribe streamId => handleSSE (length (responses st)) streamId (new_response st)
  | OpDisconnect res streamId now => disconnect res streamId now st
  | OpTimer streamId =>
      {| activeStreams := delete streamId (activeStreams st);
         streamMetrics := streamMetrics st;
         responses := responses st |}
  end.

Definition run (ops : list Op) (st : State) : State :=
  foldl (fun s op => step op s) st ops.

(** The chunks that calls of [streamChunk] on [streamId] accepted (returned
    [true] for) during a run, in order. *)
Fixpoint emitted (streamId : string) (ops : list Op) (st : State) : list Chunk :=
  match ops with
  | [] => []
  | op :: rest =>
      match op with
      | OpEmit sid data chunkType now =>
          if bool_decide (sid = streamId) && (streamChunk sid data chunkType now st).1
          then [mkChunk chunkType data now] else []
      | _ => []
      end ++ emitted streamId rest (step op st)
  end.

(** Every listener of a registered stream is subscribed once and writes
    to a response that exists. *)
Definition handles_ok (st : State) : Prop :=
  ∀ sid s, activeStreams st !! sid = Some s →
    NoDup (listeners s) ∧ Forall (fun l => (l < length (responses st))%nat) (listeners s).

(** The response [res] is open and subscribed to the stream registered
    under [streamId], if there is one, and to no other stream. *)
Definition subscribed (res : nat) (streamId : string) (st : State) : Prop :=
  (∃ resp, responses st !! res = Some resp ∧ ended resp = false) ∧
  ∀ sid s, activeStreams st !! sid = Some s →
    (sid = streamId → res ∈ listeners s) ∧ (sid ≠ streamId → res ∉ listeners s).

Definition creates (streamId : string) (op : Op) : Prop :=
  match op with
  | OpCreate _ _ now rnd _ => streamId_of now rnd = streamId
  | _ => False
  end.

Definition disconnects (res : nat) (op : Op) : Prop :=
  match op with
  | OpDisconnect res' _ _ => res' = res
  | _ => False
  end.

End Streaming.

(** ** StatsTracker: api/mcp-analytics.js recordQuery, and the statistics
    tracker class with recordSearch

    JavaScript numbers are modelled exactly: counters and durations by [Z],
    the running mean by [Q].  The source computes the mean in IEEE doubles,
    where the equations on [Q] hold up to rounding. *)

Module Stats.
Import JsString.

(** *** The analytics module *)








(** *** The statistics tracker *)

Record QueryRecord := mkRecord {
  rec_query : string;
  rec_success : bool;
  rec_duration : Z;
  rec_timestamp : Z;
  rec_server : string;
}.

(** The parts of [searchStats] that [recordSearch] reads or writes. *)
Record SearchStats := mkSearchStats {
  totalSearches : Z;
  successfulSearches : Z;
  failedSearches : Z;
  totalQueryCount : Z;
  searchDuration : list Z;
  lastUpdated : Z;
  queries : list QueryRecord;
}.

Definition searchStats0 (now : Z) : SearchStats :=
  {| totalSearches := 0; successfulSearches := 0; failedSearches := 0;
     totalQueryCount := 0; searchDuration := []; lastUpdated := now; queries := [] |}.

(** [StatsTracker.recordSearch(query, success, duration, server)];
    [now] and [now'] are the two [new Date()] reads. *)
Definition recordSearch (query : string) (success : bool) (duration : Z) (server : string)
    (now now' : Z) (s : SearchStats) : SearchStats :=
  let pushed := queries s ++ [mkRecord query success duration now' server] in
  {| totalSearches := totalSearches s + 1;
     successfulSearches := if success then successfulSearches s + 1 else successfulSearches s;
     failedSearches := if success then failedSearches s else failedSearches s + 1;
     totalQueryCount :=
       totalQueryCount s + Z.of_nat (length (split_char (ascii_of_nat 32) query));
     searchDuration := searchDuration s ++ [duration];
     lastUpdated := now;
     queries := if bool_decide (50 < length pushed)%nat then tail pushed else pushed |}.

Record SearchCall := mkSearchCall {
  sc_query : string;
  sc_success : bool;
  sc_duration : Z;
  sc_server : string;
  sc_now : Z;
  sc_now' : Z;
}.


Definition recordSearches (cs : list SearchCall) (s : SearchStats) : SearchStats :=
  foldl (fun acc c =>
           recordSearch (sc_query c) (sc_success c) (sc_duration c) (sc_server c)
                        (sc_now c) (sc_now' c) acc)
        s cs.


End Stats.

(** ** Concrete inputs for the instances *)

Module Demo.
Import QueryCache.

(** A full window: client "alice" made requests at the milliseconds
    1, 2, ..., 100. *)
Definition full_tracker : gmap string (list Z) :=
  {[ "alice" := Z.of_nat <$> seq 1 100 ]}.

(** A URL parser that accepts every URL. *)
Definition any_host (u : string) : option string := Some "example.org".

Definition one_hit : RawResult :=
  {| raw_title := "Rocq"; raw_url := "https://example.org/rocq"; raw_snippet := "a prover" |}.

(** A successful upstream answer with one result; all clock reads at [t]. *)
Definition env_live (t : Z) : Env :=
  {| now_lookup := t; now_age := t; upstream := Body true "" (Some [one_hit]);
     now_store := t; now_return := t |}.

(** An upstream answer that reports failure. *)
Definition env_down (t : Z) : Env :=
  {| now_lookup := t; now_age := t; upstream := Body false "upstream down" None;
     now_store := t; now_return := t |}.

(** The queries "0", "1", ..., "999", searched live at the milliseconds
    0, 1, ..., 999: they fill the cache. *)
Definition fill_ops : list Op :=
  (fun i => OpSearch (pretty i) "alice" (env_live (Z.of_nat i))) <$> seq 0 1000.

(** A network on which only the bubble-search service answers. *)
Definition only_bubble : Orchestrator.Net :=
  fun _ c =>
    match c with
    | Orchestrator.SearchPost target _ =>
        if bool_decide (target = "http://localhost:3002/search")
        then Orchestrator.Ok "[]" else Orchestrator.Err "ECONNREFUSED"
    | Orchestrator.HealthGet _ => Orchestrator.Err "ECONNREFUSED"
    end.

(** A network on which nothing answers. *)
Definition all_down : Orchestrator.Net :=
  fun _ _ => Orchestrator.Err "ECONNREFUSED".

(** A stream session: created, two chunks emitted, a subscriber attached,
    two more chunks emitted, then closed. *)
Definition demo_sid : string := Streaming.streamId_of 1 "k3x9".

Definition before_subscribe : list Streaming.Op :=
  [ Streaming.OpCreate "alice" "rocq" 1 "k3x9" 1;
    Streaming.OpEmit demo_sid "0" "result" 2;
    Streaming.OpEmit demo_sid "1" "result" 3 ].

Definition after_subscribe : list Streaming.Op :=
  [ Streaming.OpEmit demo_sid "2" "result" 4;
    Streaming.OpEmit demo_sid "done" "complete" 5;
    Streaming.OpClose demo_sid "complete" 6 ].


End Demo.

(** ** The tools of the MCP server (api/mcp-server.js, lines 152-291) *)

Module Tools.
Import JsString Semantic.

(** The query enhancement of the [semantic_search] tool (lines 187-197). *)
Definition enhanceQuery (q : string) : string :=
  match intent (analyzeSemantics q) with
  | ICurrent => q +:+ " 2025 latest"
  | IQuestion => q +:+ " tutorial guide"
  | IRanking => q +:+ " best comparison"
  | _ => q
  end.

(** The position of an intent in the order in which [detectIntent] tries
    its patterns. *)
Definition intent_rank (i : Intent) : nat :=
  match i with
  | IQuestion => 0
  | ISearch => 1
  | ICurrent => 2
  | IRanking => 3
  | IGeneral => 4
  end.

Fixpoint has_char (c : ascii) (s : string) : bool :=
  match s with
  | EmptyString => false
  | String a r => bool_decide (a = c) || has_char c r
  end.

Definition space : ascii := ascii_of_nat 32.

(** The inherited property names; [MCP_TOOLS] is a plain object too. *)
Abbreviation object_prototype_names := JsObject.object_prototype_names.

(** The module state of api/mcp-server.js: the rate-limit tracker, the
    query cache and the semantic index. *)
Record Global := mkGlobal {
  limiter : gmap string (list Z);
  store : QueryCache.State;
}.

Definition global0 : Global := {| limiter := ∅; store := QueryCache.init |}.

(** The [input] object of a tool call.  [input_query] is [None] when the
    field is missing or not a string, so that [query.toLowerCase()]
    throws. *)
Record ToolInput := mkInput {
  input_query : option string;
  input_limit : option Z;
}.

(** The object returned by the [cache_status] tool. *)
Record CacheStatus := mkCacheStatus {
  cachedQueries : nat;
  semanticKeywords : nat;
  totalCacheHits : Z;
  averageAge : string;
  memoryUsage : string;
}.

Inductive ToolResult :=
  | RateLimited (rateLimit : RateLimiter.RateResult)
  | Searched (resp : QueryCache.Response) (rateLimit : RateLimiter.RateResult)
  | SemanticSearched (resp : QueryCache.Response) (semanticAnalysis : Semantics)
  | CachedFound (hit : QueryCache.CachedLookup)
  | CachedNotFound
  | Status (st : CacheStatus).

(** A tool either returns or throws. *)
Inductive Outcome :=
  | Returned (r : ToolResult)
  | Threw (message : string).

(** [Math.round] on an exact number. *)
Definition js_round (x : Q) : Z := Qfloor (x + (1 # 2))%Q.

Section WithUrl.
Context (hostname : string → option string).

(** Tool 1, [web_search].  For a client id that names an inherited
    property, [rateLimitTracker[clientId]] is that inherited value, which
    has no [filter] method: [checkRateLimit] throws at line 29. *)
Definition web_search (input : ToolInput) (clientId : string) (now : Z)
    (env : QueryCache.Env) (g : Global) : Outcome * Global :=
  if bool_decide (clientId ∈ object_prototype_names) then
    (Threw "rateLimitTracker[clientId].filter is not a function", g)
  else
  let '(rateLimitResult, limiter1) := RateLimiter.checkRateLimit now clientId (limiter g) in
  if negb (RateLimiter.allowed rateLimitResult) then
    (Returned (RateLimited rateLimitResult), {| limiter := limiter1; store := store g |})
  else
    match input_query input with
    | None =>
        (Threw "Cannot read properties of undefined (reading 'toLowerCase')",
         {| limiter := limiter1; store := store g |})
    | Some q =>
        let '(result, store1) := QueryCache.searchQuery hostname q clientId env (store g) in
        (Returned (Searched result rateLimitResult), {| limiter := limiter1; store := store1 |})
    end.

(** Tool 2, [semantic_search]. *)
Definition semantic_search (input : ToolInput) (clientId : string)
    (env : QueryCache.Env) (g : Global) : Outcome * Global :=
  match input_query input with
  | None => (Threw "Cannot read properties of undefined (reading 'toLowerCase')", g)
  | Some q =>
      let semantics := analyzeSemantics q in
      let '(result, store1) :=
        QueryCache.searchQuery hostname (enhanceQuery q) clientId env (store g) in
      (Returned (SemanticSearched result semantics), {| limiter := limiter g; store := store1 |})
  end.

End WithUrl.

(** Tool 3, [get_cached_results]. *)
Definition get_cached_results (input : ToolInput) (now now' : Z) (g : Global)
  : Outcome * Global :=
  match input_query input with
  | None => (Threw "Cannot read properties of undefined (reading 'toLowerCase')", g)
  | Some q =>
      let '(found, store1) := QueryCache.getCachedResults q now now' (store g) in
      (Returned (match found with
                 | Some hit => CachedFound hit
                 | None => CachedNotFound
                 end),
       {| limiter := limiter g; store := store1 |})
  end.

(** Tool 4, [cache_status].  [clock i] is the clock reading taken for the
    [i]-th entry.  [JSON.stringify] of a [Map] is the text of an empty
    object, two characters long, so the memory usage is always
    [(2 / 1024).toFixed(2)]. *)
Definition total_hits (c : list (string * QueryCache.CacheEntry)) : Z :=
  foldl (fun sum e => sum + QueryCache.hitCount e.2) 0 c.

Definition total_age (clock : nat → Z) (c : list (string * QueryCache.CacheEntry)) : Z :=
  foldl (fun sum ie => sum + (clock ie.1 - QueryCache.timestamp ie.2.2)) 0 (imap pair c).

Definition cache_status (clock : nat → Z) (g : Global) : Outcome * Global :=
  let entries := QueryCache.queryCache (store g) in
  let avgAge :=
    if bool_decide (0 < length entries)%nat
    then (inject_Z (total_age clock entries) / inject_Z (Z.of_nat (length entries)))%Q
    else 0%Q in
  (Returned (Status
     {| cachedQueries := length entries;
        semanticKeywords := size (QueryCache.semanticIndex (store g));
        totalCacheHits := total_hits entries;
        averageAge := pretty (js_round (avgAge / inject_Z 1000)%Q) +:+ "s";
        memoryUsage := "0.00 KB" |}),
   g).

(** *** The API handler (lines 257-291)

    [action] and [clientId] are modelled where they are strings or
    missing, [input] where it is an object or missing. *)

Record Params := mkParams {
  action : option string;
  input : option ToolInput;
  clientId : option string;
}.

(** [params] is [req.body || req.query]; [None] when both are missing. *)
Record Request := mkRequest {
  method : string;
  params : option Params;
}.

(** The clock readings and the upstream behaviour a request may use. *)
Record RequestEnv := mkRequestEnv {
  rate_now : Z;
  search_env : QueryCache.Env;
  cached_now : Z;
  cached_now' : Z;
  status_clock : nat → Z;
  response_now : Z;
}.

Inductive ResponseBody :=
  | NoBody
  | InvalidAction (availableTools : list string)
  | Success (action : string) (result : ToolResult) (timestamp : Z)
  | Failure (error : string) (action : string).

Record HttpResponse := mkHttp {
  status : Z;
  body : ResponseBody;
}.

Definition tool_names : list string :=
  ["web_search"; "semantic_search"; "get_cached_results"; "cache_status"].

Section WithUrlHandler.
Context (hostname : string → option string).

(** [MCP_TOOLS[action].execute(input, clientId)]; [None] where
    [MCP_TOOLS[action]] is [undefined].  For an action that names an
    inherited property, [MCP_TOOLS[action]] is defined and has no [execute]
    method, so that the call throws. *)
Definition execute (act : string) (inp : ToolInput) (cid : string) (env : RequestEnv)
    (g : Global) : option (Outcome * Global) :=
  if bool_decide (act = "web_search") then
    Some (web_search hostname inp cid (rate_now env) (search_env env) g)
  else if bool_decide (act = "semantic_search") then
    Some (semantic_search hostname inp cid (search_env env) g)
  else if bool_decide (act = "get_cached_results") then
    Some (get_cached_results inp (cached_now env) (cached_now' env) g)
  else if bool_decide (act = "cache_status") then
    Some (cache_status (status_clock env) g)
  else if bool_decide (act ∈ object_prototype_names) then
    Some (Threw "tool.execute is not a function", g)
  else None.

(** The exported handler; [None] when it throws itself, which it does
    when the request has neither body nor query. *)
Definition handler (req : Request) (env : RequestEnv) (g : Global)
  : option HttpResponse * Global :=
  if bool_decide (method req = "OPTIONS") then (Some (mkHttp 200 NoBody), g)
  else
    match params req with
    | None => (None, g)
    | Some p =>
        let cid := default "anonymous" (clientId p) in
        match action p with
        | None => (Some (mkHttp 400 (InvalidAction tool_names)), g)
        | Some act =>
            if bool_decide (act = "") then (Some (mkHttp 400 (InvalidAction tool_names)), g)
            else
              match execute act (default (mkInput None None) (input p)) cid env g with
              | None => (Some (mkHttp 400 (InvalidAction tool_names)), g)
              | Some (Returned result, g1) =>
                  (Some (mkHttp 200 (Success act result (response_now env))), g1)
              | Some (Threw message, g1) =>
                  (Some (mkHttp 500 (Failure message act)), g1)
              end
        end
    end.

End WithUrlHandler.

End Tools.

(** ** The other methods of MCPOrchestrator *)

Module OrchestratorOps.
Import Orchestrator.

(** The keys of [this.servers] in the order of [Object.entries], which is
    the order in which [initializeServers] adds them. *)
Definition serverNames : list string := ["webSearchMCP"; "bubbleSearch"].

(** [getAllHealth]: the loop over the servers, awaiting each check;
    [clock name] is the clock reading of the check of [name]. *)
Fixpoint checkEach (net : Net) (clock : string → Z) (names : list string)
  : M (list (string * HealthReport)) :=
  match names with
  | [] => mret []
  | serverName :: rest =>
      report ← checkHealth net (clock serverName) serverName;
      reports ← checkEach net clock rest;
      mret ((serverName, report) :: reports)
  end.

Definition getAllHealth (net : Net) (clock : string → Z)
  : M (list (string * HealthReport)) :=
  checkEach net clock serverNames.

(** An element of the array returned by [getServerInfo]; [info_health]
    is [None] where the source reports the status 'unknown'. *)
Record ServerInfo := mkInfo {
  info_name : string;
  info_url : string;
  info_capabilities : list string;
  info_priority : nat;
  info_health : option Health;
}.

Definition getServerInfo (w : World) : list ServerInfo :=
  omap (fun serverName =>
          (fun srv => mkInfo serverName (url srv) (capabilities srv) (priority srv)
                             (serverHealth w !! serverName))
          <$> servers w !! serverName)
       serverNames.

(** The requests sent during a call: what the trace gained. *)
Definition sent (before after : World) : list Call :=
  drop (length (calls before)) (calls after).

(** What [checkHealth] records for a reply to its probe. *)
Definition health_of_reply (r : Reply) (now : Z) : Health :=
  match r with
  | Ok _ => mkHealth Healthy None now
  | Err message => mkHealth Unhealthy (Some message) now
  end.

(** The result of a failed [fallbackSearch]. *)
Definition unavailable (message : string) : SearchResult :=
  mkResult false None None false None (Some "All search servers unavailable")
    (Some message) None.

End OrchestratorOps.

(** ** More concrete inputs *)

Module Demo2.
Import QueryCache Tools.

(** The state after one live answer, stored at millisecond 0. *)
Definition one_entry : QueryCache.State :=
  (searchQuery Demo.any_host "Latest AI News" "alice" (Demo.env_live 0) QueryCache.init).2.

(** A server state in which the window of "alice" is full. *)
Definition exhausted : Global :=
  {| limiter := Demo.full_tracker; store := QueryCache.init |}.

Definition request_env (t : Z) : RequestEnv :=
  {| rate_now := t; search_env := Demo.env_live t; cached_now := t; cached_now' := t;
     status_clock := fun _ => t; response_now := t |}.

(** A network on which every service answers. *)
Definition all_up : Orchestrator.Net := fun _ _ => Orchestrator.Ok "[]".

Definition fresh_world : Orchestrator.World :=
  Orchestrator.initializeServers "http://localhost:3001" "http://localhost:3002".

(** The same object with a stale record that says "webSearchMCP" is down. *)
Definition stale_world : Orchestrator.World :=
  {| Orchestrator.servers := Orchestrator.servers fresh_world;
     Orchestrator.serverHealth :=
       {[ "webSearchMCP" := Orchestrator.mkHealth Orchestrator.Unhealthy (Some "timeout") 1 ]};
     Orchestrator.calls := [] |}.

End Demo2.

(** * Verification *)

(** *** C1: the semantic analyzer *)

Section SemanticProofs.
Import JsString Semantic.

Lemma append_snoc (cur : string) (c : ascii) (r : string) :
  snoc cur c +:+ r = cur +:+ String c r.
Proof.
  unfold snoc. induction cur as [|a cur IH]; [done|].
  change (String a ((cur +:+ String c EmptyString) +:+ r) = String a (cur +:+ String c r)).
  by rewrite IH.
Qed.

Lemma split_bs_s_plain (s : string) : ∀ cur,
  has_backslash s = false → split_bs_s_go false cur s = [cur +:+ s].
Proof.
  induction s as [|c r IH]; intros cur Hs; simpl in *.
  - f_equal. induction cur as [|a cur IHc]; [done|].
    change (String a cur = String a (cur +:+ EmptyString)). by rewrite <-IHc.
  - apply orb_false_iff in Hs as [Hc Hr]. rewrite Hc.
    rewrite IH by done. by rewrite append_snoc.
Qed.

Lemma lower_ascii_backslash (c : ascii) :
  bool_decide (lower_ascii c = backslash) = bool_decide (c = backslash).
Proof. by destruct c as [[] [] [] [] [] [] [] []]. Qed.

Lemma toLowerCase_backslash (s : string) :
  has_backslash (toLowerCase s) = has_backslash s.
Proof.
  induction s as [|c r IH]; simpl; [done|]. by rewrite IH, lower_ascii_backslash.
Qed.

(** On a query without a backslash the split pattern of the source never
    matches: the keyword list is the whole lower-cased query, or empty when
    the query has at most two characters. *)
Lemma keywords_without_backslash (q : string) :
  has_backslash q = false →
  keywords (analyzeSemantics q)
  = if bool_decide (2 < String.length (toLowerCase q))%nat then [toLowerCase q] else [].
Proof.
  intros Hq. unfold analyzeSemantics, split_bs_s. cbn [keywords].
  rewrite split_bs_s_plain by (by rewrite toLowerCase_backslash).
  change (EmptyString +:+ toLowerCase q) with (toLowerCase q).
  cbn [List.filter]. by case_bool_decide.
Qed.

(** C1 (evaluation at the failing input).  On the query
    "python machine learning" the specified keyword list is
    "python", "machine", "learning", and it would put the query into the
    category [CTech]; [analyzeSemantics] returns the whole lower-cased query
    as its only keyword and the category [CGeneral]: the split pattern of
    the source matches a backslash followed by letters [s], not white
    space. *)
Theorem C1_keywords_not_split_on_whitespace :
  spec_keywords "python machine learning" = ["python"; "machine"; "learning"] ∧
  keywords (analyzeSemantics "python machine learning") = ["python machine learning"] ∧
  category (analyzeSemantics "python machine learning") = CGeneral ∧
  detectCategory (spec_keywords "python machine learning") = CTech.
Proof. vm_compute. repeat split; reflexivity. Qed.

End SemanticProofs.

(** *** C2, C10: the rate limiter *)

Section RateLimiterProofs.
Import RateLimiter Demo.

Lemma filter_window_sorted (lo : Z) (w : list Z) :
  StronglySorted Z.le w → StronglySorted Z.le (filter (fun t => lo < t) w).
Proof.
  induction 1 as [|x l Hl IH Hx]; [constructor|].
  rewrite filter_cons. case_decide; [|done].
  constructor; [done|].
  apply Forall_forall. intros y [_ Hy]%list_elem_of_filter.
  rewrite Forall_forall in Hx. by apply Hx.
Qed.

Lemma sorted_head_least (w : list Z) (t0 : Z) :
  StronglySorted Z.le w → head w = Some t0 → Forall (fun t => t0 ≤ t) w.
Proof.
  intros Hs Hh. destruct w as [|x l]; simplify_eq/=.
  apply StronglySorted_inv in Hs as [_ Hx].
  constructor; [lia|done].
Qed.

Lemma filter_window_mono (lo lo' : Z) (w : list Z) :
  lo ≤ lo' →
  filter (fun t => lo' < t) (filter (fun t => lo < t) w) = filter (fun t => lo' < t) w.
Proof.
  intros Hle. induction w as [|x l IH]; [done|].
  rewrite !filter_cons. repeat case_decide; rewrite ?filter_cons; repeat case_decide;
    try lia; by rewrite IH.
Qed.

Lemma checkRateLimit_grant now clientId (tracker : Tracker) :
  let w := filter (fun t => now - 600000 < t) (default [] (tracker !! clientId)) in
  (length w < RATE_LIMIT)%nat →
  checkRateLimit now clientId tracker =
    (mkRate true (100 - Z.of_nat (length (w ++ [now]))) (Some (now + 600000)),
     <[clientId := w ++ [now]]> tracker).
Proof.
  intros w Hlt. unfold checkRateLimit. fold w.
  rewrite bool_decide_eq_false_2 by lia. done.
Qed.

Lemma checkRateLimit_deny now clientId (tracker : Tracker) :
  let w := filter (fun t => now - 600000 < t) (default [] (tracker !! clientId)) in
  (RATE_LIMIT ≤ length w)%nat →
  checkRateLimit now clientId tracker =
    (mkRate false 0 ((fun t => t + 600000) <$> head w), <[clientId := w]> tracker).
Proof.
  intros w Hge. unfold checkRateLimit. fold w.
  rewrite bool_decide_eq_true_2 by done. done.
Qed.

(** The invariant of the module state is kept by every call whose clock
    reading is not before the previous ones. *)
Lemma checkRateLimit_ok clock now clientId (tracker : Tracker) :
  tracker_ok clock tracker → clock ≤ now →
  tracker_ok now (checkRateLimit now clientId tracker).2.
Proof.
  intros Hok Hclock.
  set (stored := default [] (tracker !! clientId)).
  set (w := filter (fun t => now - 600000 < t) stored).
  assert (Hst : StronglySorted Z.le stored ∧ Forall (fun t => t ≤ clock) stored).
  { unfold stored. destruct (tracker !! clientId) as [l|] eqn:E; simpl.
    - destruct (Hok _ _ E) as (? & _ & ?). done.
    - split; constructor. }
  destruct Hst as [Hsorted Hpast].
  assert (Hw : StronglySorted Z.le w ∧ Forall (fun t => t ≤ now) w).
  { split; [by apply filter_window_sorted|].
    apply Forall_forall. intros t [_ Ht]%list_elem_of_filter.
    rewrite Forall_forall in Hpast. specialize (Hpast _ Ht). simpl in Hpast. lia. }
  destruct Hw as [Hws Hwp].
  assert (Hother : ∀ c l, c ≠ clientId → tracker !! c = Some l →
            StronglySorted Z.le l ∧ (length l ≤ RATE_LIMIT)%nat ∧ Forall (fun t => t ≤ now) l).
  { intros c l _ E. destruct (Hok _ _ E) as (? & ? & Hp). repeat split; try done.
    eapply Forall_impl; [exact Hp|]. simpl. intros. lia. }
  destruct (decide (RATE_LIMIT ≤ length w)%nat) as [Hge|Hlt].
  - pose proof (checkRateLimit_deny now clientId tracker Hge) as ->. simpl.
    intros c l. destruct (decide (c = clientId)) as [->|Hne].
    + rewrite lookup_insert_eq. intros [= <-]. fold stored. fold w.
      repeat split; try done.
      transitivity (length stored); [apply length_filter|].
      unfold stored. destruct (tracker !! clientId) as [l|] eqn:E; simpl.
      * by destruct (Hok _ _ E) as (_ & ? & _).
      * unfold RATE_LIMIT. lia.
    + rewrite lookup_insert_ne by done. by apply Hother.
  - pose proof (checkRateLimit_grant now clientId tracker) as Hg. simpl in Hg.
    rewrite Hg by (fold stored w; lia). simpl.
    intros c l. destruct (decide (c = clientId)) as [->|Hne].
    + rewrite lookup_insert_eq. intros [= <-]. fold stored. fold w.
      split; [|split].
      * apply StronglySorted_app_2; [|done|repeat constructor].
        intros x y Hx ->%list_elem_of_singleton.
        rewrite Forall_forall in Hwp. by apply Hwp.
      * rewrite length_app. simpl. lia.
      * apply Forall_app. split; [done|]. repeat constructor. lia.
    + rewrite lookup_insert_ne by done. by apply Hother.
Qed.

Lemma filter_window_all (lo : Z) (w : list Z) :
  Forall (fun t => lo < t) w → filter (fun t => lo < t) w = w.
Proof.
  induction 1 as [|x l Hx _ IH]; [done|].
  by rewrite filter_cons_True, IH.
Qed.

Lemma stored_ok clock clientId (tracker : Tracker) :
  tracker_ok clock tracker →
  let stored := default [] (tracker !! clientId) in
  StronglySorted Z.le stored ∧ (length stored ≤ RATE_LIMIT)%nat.
Proof.
  intros Hok. simpl. destruct (tracker !! clientId) as [l|] eqn:E; simpl.
  - destruct (Hok _ _ E) as (? & ? & _). done.
  - split; [constructor|unfold RATE_LIMIT; lia].
Qed.

(** A burst by one client: as long as the quota is not exhausted and no
    recorded timestamp has left the window, every call is granted and the
    window grows by the call times. *)
Lemma admitAll_grants clientId (ts : list Z) : ∀ (tracker : Tracker) (w : list Z),
  default [] (tracker !! clientId) = w →
  (∀ t x, t ∈ ts → x ∈ w ++ ts → t - 600000 < x) →
  (length w + length ts ≤ RATE_LIMIT)%nat →
  admitAll ((fun t => (clientId, t)) <$> ts) tracker =
    (imap (fun i t => mkRate true (100 - Z.of_nat (length w + i + 1)) (Some (t + 600000))) ts,
     if ts is [] then tracker else <[clientId := w ++ ts]> tracker).
Proof.
  induction ts as [|t ts IH]; intros tracker w Hw Hin Hlen; [done|].
  rewrite fmap_cons. cbn [admitAll]. simpl in Hlen.
  assert (Hfilter : filter (fun x => t - 600000 < x) (default [] (tracker !! clientId)) = w).
  { rewrite Hw. apply filter_window_all, Forall_forall. intros x Hx.
    apply Hin; [left|]. apply elem_of_app. by left. }
  pose proof (checkRateLimit_grant t clientId tracker) as Hg. simpl in Hg.
  rewrite Hfilter in Hg. rewrite Hg by lia. clear Hg.
  rewrite (IH _ (w ++ [t])).
  - f_equal.
    + cbn [imap]. f_equal.
      * f_equal. rewrite length_app. simpl. f_equal. lia.
      * apply imap_ext. intros i x _. simpl. rewrite length_app. simpl.
        do 2 f_equal. lia.
    + destruct ts; [done|]. rewrite insert_insert_eq. by rewrite <-app_assoc.
  - by rewrite lookup_insert_eq.
  - intros t' x Ht' Hx. apply Hin; [by right|]. by rewrite <-app_assoc in Hx.
  - rewrite length_app. simpl. lia.
Qed.

(** A burst of 101 calls.  Starting from a client (whose id names no
    inherited property) without recorded requests, 101 calls at non-decreasing times that all fall into one window
    of 600,000 ms see the first 100 granted, with remaining = 99, 98, ..., 0,
    and the 101st denied with resetAt = first timestamp + 600,000. *)
Theorem rate_limit_burst_101 clientId (tracker : Tracker) (t1 : Z) (ts : list Z) (t101 : Z) :
  tracker !! clientId = None →
  length (t1 :: ts) = 100%nat →
  StronglySorted Z.le (t1 :: ts ++ [t101]) →
  t101 < t1 + 600000 →
  admitAll ((fun t => (clientId, t)) <$> (t1 :: ts ++ [t101])) tracker =
    (imap (fun i t => mkRate true (100 - Z.of_nat (i + 1)) (Some (t + 600000))) (t1 :: ts)
       ++ [mkRate false 0 (Some (t1 + 600000))],
     <[clientId := t1 :: ts]> tracker).
Proof.
  intros Hnone Hlen Hsorted Hlast.
  assert (Hrange : ∀ x, x ∈ t1 :: ts ++ [t101] → t1 ≤ x ≤ t101).
  { intros x Hx. change (t1 :: ts ++ [t101]) with ((t1 :: ts) ++ [t101]) in Hsorted.
    apply StronglySorted_app in Hsorted as (Hle & Hs1 & _).
    apply StronglySorted_inv in Hs1 as [_ Hfirst]. rewrite Forall_forall in Hfirst.
    assert (Ht1 : t1 ≤ t101) by (apply Hle; [left|by apply list_elem_of_singleton]).
    apply elem_of_cons in Hx as [->|Hx]; [lia|].
    apply elem_of_app in Hx as [Hx| ->%list_elem_of_singleton]; [|lia].
    split; [by apply Hfirst|]. apply Hle; [by right|by apply list_elem_of_singleton]. }
  assert (Hadm : ∀ (A B : Type) (p : A * B), p = (p.1, p.2)) by (by intros ?? []).
  change (t1 :: ts ++ [t101]) with ((t1 :: ts) ++ [t101]).
  rewrite fmap_app.
  assert (Hsplit : ∀ cs1 cs2 (tr : Tracker),
    admitAll (cs1 ++ cs2) tr =
      ((admitAll cs1 tr).1 ++ (admitAll cs2 (admitAll cs1 tr).2).1,
       (admitAll cs2 (admitAll cs1 tr).2).2)).
  { induction cs1 as [|[c t] cs1 IH]; intros cs2 tr.
    - simpl. apply Hadm.
    - simpl. destruct (checkRateLimit t c tr) as [r tr1].
      rewrite IH. destruct (admitAll cs1 tr1) as [rs tr2]. simpl.
      by destruct (admitAll cs2 tr2). }
  rewrite Hsplit.
  rewrite (admitAll_grants clientId (t1 :: ts) tracker []).
  - simpl fst. simpl snd. f_equal.
    + f_equal.
      pose proof (checkRateLimit_deny t101 clientId (<[clientId := t1 :: ts]> tracker)) as Hd.
      simpl in Hd. rewrite lookup_insert_eq in Hd. simpl default in Hd.
      rewrite (filter_window_all (t101 - 600000) (t1 :: ts)) in Hd.
      * simpl. rewrite Hd by (unfold RATE_LIMIT; simpl in Hlen; simpl; lia). done.
      * apply Forall_forall. intros x Hx.
        assert (t1 ≤ x ≤ t101); [|lia].
        apply Hrange. apply elem_of_cons in Hx as [->|Hx]; [left|right].
        apply elem_of_app. by left.
    + pose proof (checkRateLimit_deny t101 clientId (<[clientId := t1 :: ts]> tracker)) as Hd.
      simpl in Hd. rewrite lookup_insert_eq in Hd. simpl default in Hd.
      rewrite (filter_window_all (t101 - 600000) (t1 :: ts)) in Hd.
      * simpl. rewrite Hd by (unfold RATE_LIMIT; simpl in Hlen; simpl; lia).
        simpl. by rewrite insert_insert_eq.
      * apply Forall_forall. intros x Hx.
        assert (t1 ≤ x ≤ t101); [|lia].
        apply Hrange. apply elem_of_cons in Hx as [->|Hx]; [left|right].
        apply elem_of_app. by left.
  - by rewrite Hnone.
  - intros t x Ht Hx. simpl in Hx.
    assert (t1 ≤ t ≤ t101).
    { apply Hrange. apply elem_of_cons in Ht as [->|Ht]; [left|right].
      apply elem_of_app. by left. }
    assert (t1 ≤ x ≤ t101); [|lia].
    apply Hrange. apply elem_of_cons in Hx as [->|Hx]; [left|right].
    apply elem_of_app. by left.
  - simpl in *. unfold RATE_LIMIT. lia.
Qed.

Lemma tracker_ok_empty clock : tracker_ok clock ∅.
Proof. intros c w Hc. by rewrite lookup_empty in Hc. Qed.

(** Every state reached from the empty tracker by calls whose clock
    readings do not decrease satisfies the invariant, at the last reading. *)
Lemma admitAll_ok (calls : list (string * Z)) : ∀ clock (tracker : Tracker),
  tracker_ok clock tracker →
  StronglySorted Z.le (clock :: calls.*2) →
  ∃ clock', clock ≤ clock' ∧ tracker_ok clock' (admitAll calls tracker).2.
Proof.
  induction calls as [|[c t] calls IH]; intros clock tracker Hok Hsorted.
  { exists clock. split; [lia|done]. }
  rewrite fmap_cons in Hsorted. cbn [snd] in Hsorted.
  apply StronglySorted_inv in Hsorted as [Hrest Hclock].
  apply Forall_cons in Hclock as [Hct _].
  cbn [admitAll].
  pose proof (checkRateLimit_ok clock t c tracker Hok Hct) as Hok1.
  destruct (checkRateLimit t c tracker) as [r tracker1]. cbn [snd] in Hok1.
  destruct (IH t tracker1 Hok1 Hrest) as (clock' & Hle & Hok2).
  destruct (admitAll calls tracker1) as [rs tracker2]. cbn [snd] in Hok2 |- *.
  exists clock'. split; [lia|done].
Qed.

(** The sliding window.  Quota 100, window 600,000 ms, any client id that
    names no inherited property, any state the module can be in under a
    clock that does not run backwards ([tracker_ok], kept by every call:
    [checkRateLimit_ok], [admitAll_ok]).  The call first prunes: the window
    [w] that is examined and stored holds exactly the recorded timestamps
    above [now - 600000].  While [w] holds fewer than 100 timestamps (so up
    to and including the 100th request of the window) the call is accepted,
    [now] is appended and remaining is 100 minus the new window length.
    When [w] holds 100 timestamps (the 101st request) the call is rejected
    with remaining 0 and resetAt = oldest + 600000, where [oldest] is the
    first and the least timestamp of [w]; nothing is appended.  No window
    ever holds more than 100 timestamps. *)
Theorem sliding_window_quota (clock now : Z) (clientId : string) (tracker : Tracker) :
  clientId ∉ JsObject.object_prototype_names →
  tracker_ok clock tracker →
  let stored := default [] (tracker !! clientId) in
  let w := filter (fun t => now - 600000 < t) stored in
  (∀ t, t ∈ w ↔ t ∈ stored ∧ now - 600000 < t) ∧
  ((length w < 100)%nat →
     checkRateLimit_any now clientId tracker =
       (Decided (mkRate true (100 - Z.of_nat (length (w ++ [now]))) (Some (now + 600000))),
        <[clientId := w ++ [now]]> tracker)) ∧
  ((length w = 100)%nat →
     ∃ oldest, head w = Some oldest ∧ Forall (fun t => oldest ≤ t) w ∧
       checkRateLimit_any now clientId tracker =
         (Decided (mkRate false 0 (Some (oldest + 600000))), <[clientId := w]> tracker)) ∧
  (length w ≤ 100)%nat.
Proof.
  intros Hown Hok stored w.
  destruct (stored_ok clock clientId tracker Hok) as [Hsorted Hlen].
  fold stored in Hsorted, Hlen.
  unfold checkRateLimit_any. rewrite bool_decide_eq_false_2 by done.
  split; [|split; [|split]].
  - intros t. unfold w. rewrite list_elem_of_filter. tauto.
  - intros Hlt. pose proof (checkRateLimit_grant now clientId tracker) as Hg.
    simpl in Hg. by rewrite Hg.
  - intros Hfull.
    destruct w as [|oldest rest] eqn:Ew; [discriminate|].
    exists oldest. split; [done|]. split.
    + apply sorted_head_least; [|done]. rewrite <-Ew. by apply filter_window_sorted.
    + pose proof (checkRateLimit_deny now clientId tracker) as Hd. simpl in Hd.
      fold stored in Hd. unfold w in Ew. rewrite Ew in Hd.
      rewrite Hd by (unfold RATE_LIMIT; lia). done.
  - etrans; [apply length_filter|]. exact Hlen.
Qed.

(** For each of the inherited names, in every state and at every time, the
    call throws and stores nothing: such a client is never admitted and
    never told that it is over the quota. *)
Theorem checkRateLimit_any_inherited (now : Z) (clientId : string) (tracker : Tracker) :
  clientId ∈ JsObject.object_prototype_names →
  checkRateLimit_any now clientId tracker
    = (TypeError "rateLimitTracker[clientId].filter is not a function", tracker).
Proof. intros Hin. unfold checkRateLimit_any. by rewrite bool_decide_eq_true_2. Qed.

(** C2 (evaluation at the failing input).  The first call of the client
    "constructor", at time 1000 with nothing recorded, is the first request
    of its window: the claim has it accepted with remaining = 99, as the
    same call of the client "alice" is.  [checkRateLimit] throws a
    [TypeError] instead and records nothing, because
    [rateLimitTracker["constructor"]] is the inherited [Object] function and
    not an array of timestamps. *)
Theorem C2_inherited_client_id_throws :
  checkRateLimit_any 1000 "constructor" ∅
    = (TypeError "rateLimitTracker[clientId].filter is not a function", ∅) ∧
  checkRateLimit_any 1000 "alice" ∅
    = (Decided (mkRate true 99 (Some 601000)), {["alice" := [1000]]}).
Proof. split; reflexivity. Qed.

(** C10.  A denied call stores the pruned window and nothing else: the
    client's entry becomes the old one filtered by the window, [now] is not
    appended and the other clients are untouched.  The quota is not consumed:
    from the returned resetAt on, the next call of the client is admitted. *)
Theorem C10_denied_call_consumes_no_quota
    (clock now : Z) (clientId : string) (tracker tracker' : Tracker) (res : RateResult) :
  tracker_ok clock tracker →
  checkRateLimit now clientId tracker = (res, tracker') →
  allowed res = false →
  let w := filter (fun t => now - 600000 < t) (default [] (tracker !! clientId)) in
  tracker' = <[clientId := w]> tracker ∧
  (length w = 100)%nat ∧
  remaining res = 0 ∧
  ∃ reset, resetAt res = Some reset ∧
    ∀ later, reset ≤ later →
      allowed (checkRateLimit later clientId tracker').1 = true ∧
      (checkRateLimit later clientId tracker').2 !! clientId
        = Some (filter (fun t => later - 600000 < t) w ++ [later]).
Proof.
  intros Hok Hcall Hdenied w.
  destruct (stored_ok clock clientId tracker Hok) as [Hsorted Hlen].
  assert (Hwlen : (length w ≤ RATE_LIMIT)%nat) by (etrans; [apply length_filter|done]).
  destruct (decide (RATE_LIMIT ≤ length w)%nat) as [Hge|Hlt]; last first.
  { pose proof (checkRateLimit_grant now clientId tracker) as Hg. simpl in Hg.
    fold w in Hg. rewrite Hg in Hcall by lia. by simplify_eq/=. }
  pose proof (checkRateLimit_deny now clientId tracker Hge) as Hd.
  fold w in Hd. rewrite Hd in Hcall. simplify_eq/=.
  split; [done|]. split; [unfold RATE_LIMIT in *; lia|]. split; [done|].
  destruct w as [|oldest rest] eqn:Ew; [unfold RATE_LIMIT in Hge; simpl in Hge; lia|].
  exists (oldest + 600000). split; [done|]. intros later Hlater.
  pose proof (checkRateLimit_grant later clientId (<[clientId := oldest :: rest]> tracker)) as Hg.
  simpl in Hg. rewrite lookup_insert_eq in Hg. simpl default in Hg.
  rewrite Hg.
  - simpl. by rewrite lookup_insert_eq.
  - rewrite filter_cons_False by lia.
    pose proof (length_filter (fun t => later - 600000 < t) rest).
    simpl in Hwlen. lia.
Qed.

Lemma full_tracker_ok : tracker_ok 100 full_tracker.
Proof.
  intros c w Hc. unfold full_tracker in Hc.
  apply lookup_singleton_Some in Hc as [_ <-].
  split; [|split].
  - compute_done.
  - done.
  - compute_done.
Qed.

Lemma sliding_window_quota_witness :
  ∃ tracker',
    checkRateLimit_any 101 "alice" full_tracker
      = (Decided (mkRate false 0 (Some 600001)), tracker').
Proof.
  assert (Hown : "alice" ∉ JsObject.object_prototype_names) by compute_done.
  destruct (sliding_window_quota 100 101 "alice" full_tracker Hown full_tracker_ok)
    as (_ & _ & Hdeny & _).
  destruct (Hdeny eq_refl) as (oldest & Hhead & _ & Hcall).
  vm_compute in Hhead. injection Hhead as <-.
  eexists. exact Hcall.
Defined.

Lemma C10_denied_call_consumes_no_quota_witness :
  allowed (checkRateLimit 600001
             "alice" (checkRateLimit 101 "alice" full_tracker).2).1 = true.
Proof.
  destruct (C10_denied_call_consumes_no_quota 100 101 "alice" full_tracker
              (checkRateLimit 101 "alice" full_tracker).2
              (checkRateLimit 101 "alice" full_tracker).1
              full_tracker_ok) as (_ & _ & _ & reset & Hreset & Hnext).
  - by destruct (checkRateLimit 101 "alice" full_tracker).
  - reflexivity.
  - vm_compute in Hreset. injection Hreset as <-.
    apply (Hnext 600001). lia.
Defined.

End RateLimiterProofs.

(** *** C3, C4, C9: the query cache *)

Section QueryCacheProofs.
Import JsString Semantic QueryCache.
Context (hostname : string → option string).

Implicit Types (c : Cache) (e : CacheEntry) (key : string).

Lemma cache_get_Some_elem key c e : cache_get key c = Some e → (key, e) ∈ c.
Proof.
  induction c as [|[k e'] c IH]; simpl; [done|].
  case_bool_decide as Hk; [intros [= ->]; subst; left | right; auto].
Qed.

Lemma cache_get_None key c : cache_get key c = None ↔ key ∉ c.*1.
Proof.
  induction c as [|[k e'] c IH]; simpl.
  - split; [intros _; apply not_elem_of_nil|done].
  - rewrite not_elem_of_cons. case_bool_decide; [naive_solver|].
    rewrite IH. naive_solver.
Qed.

Lemma cache_set_keys key e c :
  (cache_set key e c).*1 = if decide (key ∈ c.*1) then c.*1 else c.*1 ++ [key].
Proof.
  induction c as [|[k e'] c IH].
  - cbn [cache_set]. destruct (decide _) as [Hin|Hin]; [by apply elem_of_nil in Hin|done].
  - cbn [cache_set]. case_bool_decide as Hk.
    + subst. rewrite !fmap_cons. cbn [fst].
      destruct (decide (key ∈ key :: c.*1)) as [Hin|Hin]; [done|].
      exfalso. apply Hin, elem_of_cons. by left.
    + rewrite !fmap_cons, IH. cbn [fst].
      destruct (decide (key ∈ c.*1)) as [Hin|Hin];
        destruct (decide (key ∈ k :: c.*1)) as [Hin'|Hin']; try done.
      * exfalso. apply Hin', elem_of_cons. by right.
      * apply elem_of_cons in Hin' as [?|?]; congruence.
Qed.

Lemma cache_set_NoDup key e c : NoDup c.*1 → NoDup (cache_set key e c).*1.
Proof.
  intros Hnd. rewrite cache_set_keys. case_decide; [done|].
  apply NoDup_app. split; [done|]. split; [|apply NoDup_singleton].
  intros x Hx ->%list_elem_of_singleton. done.
Qed.

Lemma cache_set_length key e c :
  length (cache_set key e c) = if decide (key ∈ c.*1) then length c else S (length c).
Proof.
  rewrite <-(length_fmap fst (cache_set key e c)), cache_set_keys.
  case_decide; rewrite ?length_app, length_fmap; simpl; lia.
Qed.

Lemma cache_get_set_eq key e c : cache_get key (cache_set key e c) = Some e.
Proof.
  induction c as [|[k e'] c IH]; simpl.
  - by rewrite bool_decide_eq_true_2.
  - case_bool_decide as Hk; simpl; [by rewrite bool_decide_eq_true_2|].
    by rewrite bool_decide_eq_false_2.
Qed.

Lemma cache_get_set_ne key key' e c :
  key ≠ key' → cache_get key' (cache_set key e c) = cache_get key' c.
Proof.
  intros Hne. induction c as [|[k e'] c IH]; simpl.
  - by rewrite bool_decide_eq_false_2.
  - case_bool_decide as Hk; simpl.
    + subst. by rewrite bool_decide_eq_false_2.
    + case_bool_decide; [done|apply IH].
Qed.

Lemma cache_delete_keys key c : (cache_delete key c).*1 = filter (fun k => k ≠ key) c.*1.
Proof.
  unfold cache_delete. induction c as [|[k e'] c IH]; [done|].
  rewrite fmap_cons, !filter_cons. cbn [fst].
  destruct (decide (k ≠ key)); [rewrite fmap_cons|]; by rewrite IH.
Qed.

Lemma cache_delete_NoDup key c : NoDup c.*1 → NoDup (cache_delete key c).*1.
Proof. rewrite cache_delete_keys. apply NoDup_filter. Qed.

Lemma cache_delete_length key c :
  NoDup c.*1 → key ∈ c.*1 → S (length (cache_delete key c)) = length c.
Proof.
  rewrite <-(length_fmap fst (cache_delete key c)), <-(length_fmap fst c), cache_delete_keys.
  generalize (c.*1). clear c. intros ks.
  induction ks as [|k ks IH]; [intros _ []%elem_of_nil|].
  rewrite NoDup_cons. intros [Hk Hnd] Hin. rewrite filter_cons.
  destruct (decide (k ≠ key)) as [Hne|Heq].
  - simpl. f_equal. apply IH; [done|].
    apply elem_of_cons in Hin as [->|]; done.
  - apply dec_stable in Heq. subst. simpl. f_equal. f_equal.
    clear IH Hin Hnd. induction ks as [|k' ks IH]; [done|].
    apply not_elem_of_cons in Hk as [Hne Hk].
    rewrite filter_cons_True by congruence. f_equal. by apply IH.
Qed.

Lemma cache_delete_elem key c p : p ∈ cache_delete key c ↔ p ∈ c ∧ p.1 ≠ key.
Proof. unfold cache_delete. rewrite list_elem_of_filter. tauto. Qed.

(** The head of the sorted entries is the entry that comes first, in
    insertion order, among those with the least timestamp. *)
Lemma sort_by_timestamp_nil c : sort_by_timestamp c = [] → c = [].
Proof.
  destruct c as [|p c]; [done|]. simpl.
  destruct (sort_by_timestamp c) as [|q r]; simpl; [done|].
  by case_bool_decide.
Qed.

Lemma sort_by_timestamp_head c v rest :
  sort_by_timestamp c = v :: rest →
  ∃ before after, c = before ++ v :: after ∧
    Forall (fun p => timestamp v.2 < timestamp p.2) before ∧
    Forall (fun p => timestamp v.2 ≤ timestamp p.2) after.
Proof.
  revert v rest. induction c as [|p c IH]; intros v rest; [done|].
  simpl. destruct (sort_by_timestamp c) as [|q r] eqn:Hs.
  - apply sort_by_timestamp_nil in Hs as ->. simpl. intros [= <- <-].
    exists [], []. by repeat constructor.
  - destruct (IH q r eq_refl) as (before & after & -> & Hbefore & Hafter).
    simpl. case_bool_decide as Hle; intros [= <- <-].
    + exists [], (before ++ q :: after). split; [done|]. split; [constructor|].
      apply Forall_app. split.
      * eapply Forall_impl; [exact Hbefore|]. simpl. intros. lia.
      * constructor; [done|]. eapply Forall_impl; [exact Hafter|]. simpl. intros. lia.
    + exists (p :: before), after. split; [done|]. split; [|done].
      constructor; [lia|done].
Qed.

Lemma sort_by_timestamp_least c v rest :
  sort_by_timestamp c = v :: rest →
  v ∈ c ∧ ∀ p, p ∈ c → timestamp v.2 ≤ timestamp p.2.
Proof.
  intros (before & after & -> & Hb & Ha)%sort_by_timestamp_head.
  split; [set_solver|].
  intros p [Hp|[->|Hp]%elem_of_cons]%elem_of_app.
  - rewrite Forall_forall in Hb. specialize (Hb _ Hp). simpl in Hb. lia.
  - lia.
  - rewrite Forall_forall in Ha. by apply Ha.
Qed.

Lemma cache_key_unique c key e1 e2 :
  NoDup c.*1 → (key, e1) ∈ c → (key, e2) ∈ c → e1 = e2.
Proof.
  induction c as [|[k e'] c IH]; [by intros _ ?%elem_of_nil|].
  rewrite fmap_cons, NoDup_cons. cbn [fst]. intros [Hk Hnd] H1 H2.
  assert (Hkey : ∀ e, (key, e) ∈ c → key ∈ c.*1).
  { intros e He. apply list_elem_of_fmap. by exists (key, e). }
  apply elem_of_cons in H1 as [H1|H1]; apply elem_of_cons in H2 as [H2|H2];
    simplify_eq; try done; try (destruct Hk; by eauto).
  by apply IH.
Qed.

(** What eviction does when the cache is over capacity. *)
Lemma evictOldest_over c :
  NoDup c.*1 → (MAX_ENTRIES < length c)%nat →
  ∃ victim, victim ∈ c ∧
    (∀ p, p ∈ c → timestamp victim.2 ≤ timestamp p.2) ∧
    evictOldest c = cache_delete victim.1 c ∧
    S (length (evictOldest c)) = length c ∧
    (∀ p, p ∈ evictOldest c ↔ p ∈ c ∧ p ≠ victim).
Proof.
  intros Hnd Hover. unfold evictOldest. rewrite bool_decide_eq_true_2 by done.
  destruct (sort_by_timestamp c) as [|v rest] eqn:Hs.
  { apply sort_by_timestamp_nil in Hs as ->. simpl in Hover. lia. }
  destruct (sort_by_timestamp_least _ _ _ Hs) as [Hv Hmin].
  exists v. split; [done|]. split; [done|]. split; [done|]. split.
  - apply cache_delete_length; [done|]. apply list_elem_of_fmap. by exists v.
  - intros p. rewrite cache_delete_elem. split.
    + intros [Hp Hne]. split; [done|]. congruence.
    + intros [Hp Hne]. split; [done|].
      intros Hk. apply Hne. destruct p as [k1 e1], v as [k2 e2]. simpl in Hk. subst.
      f_equal. by eapply cache_key_unique.
Qed.

Lemma evictOldest_under c : (length c ≤ MAX_ENTRIES)%nat → evictOldest c = c.
Proof. intros. unfold evictOldest. by rewrite bool_decide_eq_false_2 by lia. Qed.

Lemma store_ok key e c : cache_ok c → cache_ok (evictOldest (cache_set key e c)).
Proof.
  intros [Hnd Hlen].
  pose proof (cache_set_NoDup key e c Hnd) as Hnd1.
  pose proof (cache_set_length key e c) as Hlen1.
  destruct (decide (MAX_ENTRIES < length (cache_set key e c))%nat) as [Hover|Hfit].
  - destruct (evictOldest_over _ Hnd1 Hover) as (v & _ & _ & -> & Hl & _).
    split; [by apply cache_delete_NoDup|].
    destruct (decide (key ∈ c.*1)); lia.
  - rewrite evictOldest_under by lia. split; [done|lia].
Qed.

Lemma searchQuery_cache q cid env (st : State) :
  let key := trim (toLowerCase q) in
  let out := searchQuery hostname q cid env st in
  (source out.1 ≠ SrcLive ∧ out.2 = st) ∨
  (source out.1 = SrcLive ∧
   lookup_fresh key (now_lookup env) (queryCache st) = None ∧
   ∃ e, timestamp e = now_store env ∧ query e = q ∧ results e = response_results out.1 ∧
        queryCache out.2 = evictOldest (cache_set key e (queryCache st)) ∧
        semanticIndex out.2
          = indexKeywords key (keywords (analyzeSemantics q)) (semanticIndex st)).
Proof.
  intros key out. unfold out, searchQuery. fold key.
  destruct (lookup_fresh key (now_lookup env) (queryCache st)) as [cached|]; [by left|].
  unfold live_search.
  destruct (upstream env) as [msg|msg|[] err [raws|]]; simpl; try by left.
  destruct (build_results hostname key 0 raws) as [rs|]; simpl; [|by left].
  right. split; [done|]. split; [done|]. eexists. repeat split; done.
Qed.

Lemma step_ok op (st : State) : cache_ok (queryCache st) → cache_ok (queryCache (step hostname op st)).
Proof.
  intros Hok. destruct op as [q cid env|q now now']; simpl.
  - destruct (searchQuery_cache q cid env st) as [[_ ->]|(_ & _ & e & _ & _ & _ & -> & _)];
      [done|by apply store_ok].
  - unfold getCachedResults.
    destruct (cache_get _ (queryCache st)) as [cached|] eqn:Hget; simpl; [|done].
    destruct Hok as [Hnd Hlen]. split; [by apply cache_set_NoDup|].
    rewrite cache_set_length. rewrite decide_True; [done|].
    apply cache_get_Some_elem in Hget. apply list_elem_of_fmap. by eexists (_, _).
Qed.

Lemma run_ok ops (st : State) : cache_ok (queryCache st) → cache_ok (queryCache (run hostname ops st)).
Proof.
  revert st. induction ops as [|op ops IH]; intros st Hok; [done|].
  simpl. apply IH. by apply step_ok.
Qed.

Lemma init_ok : cache_ok (queryCache init).
Proof. split; [constructor|simpl; lia]. Qed.


(** C4.  In every state reached from the empty cache by any sequence of
    searches and cached-result lookups the cache holds at most 1000 entries.
    A call that is not answered live leaves the cache as it is; a live call
    sets its entry and, when that makes 1001 entries, removes exactly one:
    an entry [victim] present after the insertion whose timestamp is least
    among the entries present. *)
Theorem C4_capacity_and_oldest_eviction (ops : list Op) :
  let st := run hostname ops init in
  (length (queryCache st) ≤ 1000)%nat ∧
  ∀ q cid env,
    let out := searchQuery hostname q cid env st in
    (source out.1 ≠ SrcLive ∧ queryCache out.2 = queryCache st) ∨
    (source out.1 = SrcLive ∧
     ∃ e, timestamp e = now_store env ∧
       let inserted := cache_set (trim (toLowerCase q)) e (queryCache st) in
       ((length inserted ≤ 1000)%nat ∧ queryCache out.2 = inserted) ∨
       (length inserted = 1001%nat ∧
        ∃ victim, victim ∈ inserted ∧
          (∀ p, p ∈ inserted → timestamp victim.2 ≤ timestamp p.2) ∧
          queryCache out.2 = cache_delete victim.1 inserted ∧
          length (queryCache out.2) = 1000%nat ∧
          (∀ p, p ∈ queryCache out.2 ↔ p ∈ inserted ∧ p ≠ victim))).
Proof.
  intros st.
  destruct (run_ok ops init init_ok) as [Hnd Hlen]. fold st in Hnd, Hlen.
  split; [done|]. intros q cid env out.
  destruct (searchQuery_cache q cid env st) as [[Hsrc Hst]|(Hsrc & _ & e & He & _ & _ & Hc & _)].
  { left. fold out in Hsrc, Hst. by rewrite Hst. }
  right. split; [done|]. exists e. split; [done|]. intros inserted.
  fold out in Hc. fold inserted in Hc.
  pose proof (cache_set_NoDup (trim (toLowerCase q)) e _ Hnd) as Hnd1.
  pose proof (cache_set_length (trim (toLowerCase q)) e (queryCache st)) as Hlen1.
  fold inserted in Hnd1, Hlen1.
  destruct (decide (MAX_ENTRIES < length inserted)%nat) as [Hover|Hfit].
  - right.
    assert (length inserted = 1001%nat) as Hfull.
    { unfold MAX_ENTRIES in *. destruct (decide (_ ∈ _)); lia. }
    split; [done|].
    destruct (evictOldest_over _ Hnd1 Hover) as (v & Hv & Hmin & Hev & Hl & Hiff).
    exists v. rewrite Hc. repeat split; try done; try (by apply Hiff).
    lia.
  - left. unfold MAX_ENTRIES in *. split; [lia|].
    rewrite Hc. apply evictOldest_under. unfold MAX_ENTRIES. lia.
Qed.

(** C9.  When the live path runs and the upstream call fails (the fetch or
    the JSON decoding throws, or the body reports [success = false]),
    [searchQuery] returns the error response with an empty result list,
    and the state after the call is the state before it: the query cache
    and the semantic index are untouched. *)
Theorem C9_failed_upstream_leaves_state q cid env (st : State) :
  lookup_fresh (trim (toLowerCase q)) (now_lookup env) (queryCache st) = None →
  upstream_fails (upstream env) →
  let out := searchQuery hostname q cid env st in
  source out.1 = SrcError ∧
  response_results out.1 = [] ∧
  (∃ message, out.1 = Failed q message (now_return env)) ∧
  queryCache out.2 = queryCache st ∧
  semanticIndex out.2 = semanticIndex st ∧
  out.2 = st.
Proof.
  intros Hmiss Hfail out. unfold out, searchQuery. rewrite Hmiss.
  unfold live_search.
  destruct (upstream env) as [msg|msg|success err items]; simpl in *; subst; simpl;
    eauto 10.
Qed.

End QueryCacheProofs.

Section QueryCacheInstances.
Import JsString Semantic QueryCache Demo.


Lemma C9_failed_upstream_leaves_state_witness :
  let st := (searchQuery any_host "Latest AI News" "alice" (env_live 0) init).2 in
  source (searchQuery any_host "rocq prover" "bob" (env_down 5) st).1 = SrcError ∧
  (searchQuery any_host "rocq prover" "bob" (env_down 5) st).2 = st.
Proof.
  intros st.
  destruct (C9_failed_upstream_leaves_state any_host "rocq prover" "bob" (env_down 5) st)
    as (Hsrc & _ & _ & _ & _ & Hst).
  - vm_compute. reflexivity.
  - reflexivity.
  - by split.
Defined.

Lemma fill_ops_full : length (queryCache (run any_host fill_ops init)) = 1000%nat.
Proof. vm_compute. reflexivity. Qed.

Lemma C4_capacity_and_oldest_eviction_witness :
  let st := run any_host fill_ops init in
  let out := searchQuery any_host "one more" "bob" (env_live 1000) st in
  length (queryCache st) = 1000%nat ∧
  length (queryCache out.2) = 1000%nat ∧
  cache_get "0" (queryCache st) ≠ None ∧
  cache_get "0" (queryCache out.2) = None.
Proof.
  intros st out.
  destruct (C4_capacity_and_oldest_eviction any_host fill_ops) as [Hcap Hstore].
  specialize (Hstore "one more" "bob" (env_live 1000)).
  fold st in Hcap, Hstore. fold out in Hstore.
  split; [apply fill_ops_full|].
  destruct Hstore as [[Hsrc _]|(_ & e & _ & [[Hfit _]|(_ & victim & _ & _ & _ & Hlen & _)])].
  - exfalso. apply Hsrc. vm_compute. reflexivity.
  - exfalso. rewrite cache_set_length in Hfit.
    unfold st in Hfit. rewrite fill_ops_full in Hfit.
    destruct (decide _) as [Hin|_]; [|lia].
    revert Hin. apply (bool_decide_eq_false_1 _). vm_compute. reflexivity.
  - split; [exact Hlen|]. split; [vm_compute; discriminate|vm_compute; reflexivity].
Defined.

End QueryCacheInstances.

(** *** C7: provider failover *)

Section OrchestratorProofs.
Import Orchestrator Demo.

Lemma registry_web webUrl bubbleUrl :
  servers (initializeServers webUrl bubbleUrl) !! "webSearchMCP"
  = Some (mkServer "web-search-mcp" "mcp" webUrl "web-search-mcp" 1 ["search"; "summarize"]).
Proof. simpl. rewrite lookup_insert_ne by done. by rewrite lookup_insert_eq. Qed.

Lemma registry_bubble webUrl bubbleUrl :
  servers (initializeServers webUrl bubbleUrl) !! "bubbleSearch"
  = Some (mkServer "bubble-search" "rest" bubbleUrl "npm run dev" 2 ["search"; "free-tier"]).
Proof. simpl. by rewrite lookup_insert_eq. Qed.

(** Runs the monadic plumbing of a method body up to the next request. *)
Ltac orch_simpl Hreg :=
  repeat first
    [ progress (unfold mbind, M_bind, mret, M_ret, getServer, request, setHealth)
    | progress (cbn beta iota zeta delta
                  [fst snd calls servers serverHealth url report_status])
    | rewrite Hreg
    | rewrite registry_web
    | rewrite registry_bubble ].

(** [fallbackSearch] for a failed "webSearchMCP": one request to the
    bubble-search URL, whose reply decides the result. *)
Lemma fallbackSearch_web net now query webUrl bubbleUrl (w : World) :
  servers w = servers (initializeServers webUrl bubbleUrl) →
  let alternate := SearchPost (bubbleUrl +:+ "/search") query in
  let out := fallbackSearch net now query "webSearchMCP" w in
  calls out.2 = calls w ++ [alternate] ∧
  serverHealth out.2 = serverHealth w ∧
  servers out.2 = servers w ∧
  out.1 = match net (calls w) alternate with
          | Ok data =>
              mkResult true (Some "bubbleSearch") (Some data) true (Some "webSearchMCP")
                None None (Some now)
          | Err message =>
              mkResult false None None false None (Some "All search servers unavailable")
                (Some message) None
          end.
Proof.
  intros Hreg alternate out. subst out. unfold fallbackSearch.
  rewrite bool_decide_eq_true_2 by done. orch_simpl Hreg. fold alternate.
  by destruct (net (calls w) alternate).
Qed.

(** C7.  The registry is the one of [initializeServers]; the request names
    the priority-1 provider "webSearchMCP".  If its health probe fails, or
    its search request fails, then [executeSearch] sends, after the
    requests to the primary, exactly one request to the priority-2
    provider "bubbleSearch" and nothing after it.  If that request is
    answered, the result has [success = true], [failover = true], names
    "bubbleSearch" as the server and "webSearchMCP" as the failed primary;
    if it fails, the result has [success = false]. *)
Theorem C7_single_failover_attempt net now query webUrl bubbleUrl (w : World) :
  servers w = servers (initializeServers webUrl bubbleUrl) →
  primary_fails net w webUrl query →
  let alternate := SearchPost (bubbleUrl +:+ "/search") query in
  let before := primary_requests net w webUrl query in
  let out := executeSearch net now query "webSearchMCP" w in
  calls out.2 = calls w ++ before ++ [alternate] ∧
  (∀ message, net (calls w) (HealthGet (webUrl +:+ "/health")) = Err message →
     serverHealth out.2 !! "webSearchMCP" = Some (mkHealth Unhealthy (Some message) now)) ∧
  match net (calls w ++ before) alternate with
  | Ok data =>
      out.1 = mkResult true (Some "bubbleSearch") (Some data) true (Some "webSearchMCP")
                None None (Some now)
  | Err message =>
      out.1 = mkResult false None None false None (Some "All search servers unavailable")
                (Some message) None ∧
      success out.1 = false
  end.
Proof.
  intros Hreg Hfail alternate before out. subst out before.
  unfold primary_requests, primary_fails in *.
  unfold executeSearch, checkHealth. orch_simpl Hreg.
  destruct (net (calls w) (HealthGet (webUrl +:+ "/health"))) as [data|message] eqn:Hprobe.
  - destruct Hfail as [message Hsearch]. orch_simpl Hreg. rewrite Hsearch.
    match goal with |- context [fallbackSearch net now query "webSearchMCP" ?w1] =>
      destruct (fallbackSearch_web net now query webUrl bubbleUrl w1 eq_refl)
        as (Hcalls & Hhealth & _ & Hres) end.
    cbn [calls] in Hcalls, Hres. rewrite Hcalls, Hres.
    split; [by rewrite <-!app_assoc|]. split; [intros ? [=]|].
    rewrite <-app_assoc. simpl. fold alternate.
    by destruct (net _ alternate).
  - orch_simpl Hreg.
    match goal with |- context [fallbackSearch net now query "webSearchMCP" ?w1] =>
      destruct (fallbackSearch_web net now query webUrl bubbleUrl w1 eq_refl)
        as (Hcalls & Hhealth & _ & Hres) end.
    cbn [calls serverHealth] in Hcalls, Hhealth, Hres. rewrite Hcalls, Hhealth, Hres.
    split; [by rewrite <-!app_assoc|]. split.
    + intros ? [= <-]. by rewrite lookup_insert_eq.
    + fold alternate. by destruct (net _ alternate).
Qed.

Lemma C7_single_failover_attempt_witness :
  let w := initializeServers "http://localhost:3001" "http://localhost:3002" in
  (executeSearch only_bubble 7 "rocq" "webSearchMCP" w).1
    = mkResult true (Some "bubbleSearch") (Some "[]") true (Some "webSearchMCP")
        None None (Some 7) ∧
  calls (executeSearch only_bubble 7 "rocq" "webSearchMCP" w).2
    = [HealthGet "http://localhost:3001/health";
       SearchPost "http://localhost:3002/search" "rocq"] ∧
  success (executeSearch all_down 7 "rocq" "webSearchMCP" w).1 = false ∧
  calls (executeSearch all_down 7 "rocq" "webSearchMCP" w).2
    = [HealthGet "http://localhost:3001/health";
       SearchPost "http://localhost:3002/search" "rocq"].
Proof.
  intros w.
  destruct (C7_single_failover_attempt only_bubble 7 "rocq"
              "http://localhost:3001" "http://localhost:3002" w eq_refl I)
    as (Hcalls & _ & Hres).
  destruct (C7_single_failover_attempt all_down 7 "rocq"
              "http://localhost:3001" "http://localhost:3002" w eq_refl I)
    as (Hcalls' & _ & Hres').
  split; [exact Hres|]. split; [exact Hcalls|].
  split; [apply Hres'|exact Hcalls'].
Defined.

End OrchestratorProofs.

(** *** C5, C6: the stream broker *)

Section StreamingProofs.
Import Streaming.

Implicit Types (rs : list Response) (ls : list nat) (c : Chunk) (st : State).

Lemma write_length res f rs : length (write res f rs) = length rs.
Proof. apply length_alter. Qed.

Lemma write_lookup_ne res r f rs : res ≠ r → write res f rs !! r = rs !! r.
Proof. intros. by apply list_lookup_alter_ne. Qed.

Lemma write_lookup_open r f rs resp :
  rs !! r = Some resp → ended resp = false →
  write r f rs !! r = Some (mkResponse (written resp ++ [f]) false).
Proof.
  intros Hr Hopen. unfold write. rewrite list_lookup_alter_eq, Hr. simpl.
  by rewrite Hopen.
Qed.

Lemma end_response_length res rs : length (end_response res rs) = length rs.
Proof. apply length_alter. Qed.

Lemma end_response_lookup_ne res r rs : res ≠ r → end_response res rs !! r = rs !! r.
Proof. intros. by apply list_lookup_alter_ne. Qed.

Lemma notify_length ls c rs : length (notify ls c rs) = length rs.
Proof.
  revert rs. induction ls as [|l ls IH]; intros rs; [done|].
  unfold notify in *. simpl. by rewrite IH, write_length.
Qed.

Lemma notify_lookup_notin ls c rs r : r ∉ ls → notify ls c rs !! r = rs !! r.
Proof.
  revert rs. induction ls as [|l ls IH]; intros rs Hr; [done|].
  apply not_elem_of_cons in Hr as [Hne Hr].
  unfold notify in *. simpl. rewrite IH by done. by apply write_lookup_ne.
Qed.

(** A listener that occurs once in the list and whose response is open
    gets the frame of the chunk once, at the end of what it has. *)
Lemma notify_lookup_once ls c rs r resp :
  NoDup ls → r ∈ ls → rs !! r = Some resp → ended resp = false →
  notify ls c rs !! r = Some (mkResponse (written resp ++ [frame_of c]) false).
Proof.
  revert rs. induction ls as [|l ls IH]; intros rs Hnd Hin Hr Hopen.
  { by apply elem_of_nil in Hin. }
  apply NoDup_cons in Hnd as [Hl Hnd].
  change (notify (l :: ls) c rs) with (notify ls c (write l (frame_of c) rs)).
  destruct (decide (l = r)) as [->|Hne].
  - rewrite notify_lookup_notin by done. by apply write_lookup_open.
  - apply IH; try done.
    + apply elem_of_cons in Hin as [?|?]; [congruence|done].
    + by rewrite write_lookup_ne.
Qed.

(** Replaying a buffer into a response that is open. *)
Lemma replay_lookup (cs : list Chunk) rs r resp :
  rs !! r = Some resp → ended resp = false →
  foldl (fun acc c => write r (frame_of c) acc) rs cs !! r
  = Some (mkResponse (written resp ++ (frame_of <$> cs)) false).
Proof.
  revert rs resp. induction cs as [|c cs IH]; intros rs resp Hr Hopen.
  - simpl. rewrite app_nil_r, Hr. by destruct resp; simplify_eq/=.
  - simpl. erewrite IH; [|by apply write_lookup_open|done].
    simpl. by rewrite <-app_assoc.
Qed.

Lemma replay_lookup_ne (cs : list Chunk) rs res r :
  res ≠ r → foldl (fun acc c => write res (frame_of c) acc) rs cs !! r = rs !! r.
Proof.
  intros Hne. revert rs. induction cs as [|c cs IH]; intros rs; [done|].
  simpl. rewrite IH. by apply write_lookup_ne.
Qed.

Lemma replay_length (cs : list Chunk) rs res :
  length (foldl (fun acc c => write res (frame_of c) acc) rs cs) = length rs.
Proof.
  revert rs. induction cs as [|c cs IH]; intros rs; [done|].
  simpl. by rewrite IH, write_length.
Qed.

(** How one event changes the listeners of the registered streams. *)
Lemma step_listeners op st sid s' :
  activeStreams (step op st) !! sid = Some s' →
  (creates sid op ∧ listeners s' = []) ∨
  ∃ s0, activeStreams st !! sid = Some s0 ∧
    (listeners s' = listeners s0 ∨
     (op = OpSubscribe sid ∧ listeners s' = listeners s0 ++ [length (responses st)])).
Proof.
  destruct op as [cid q now rnd now'|sid0 d ty now|sid0 reason now|sid0|res sid0 now|sid0];
    simpl.
  - destruct (decide (streamId_of now rnd = sid)) as [<-|Hne].
    + rewrite lookup_insert_eq. intros [= <-]. by left.
    + rewrite lookup_insert_ne by done. intros Hs. right. eauto.
  - unfold streamChunk. destruct (activeStreams st !! sid0) as [s0|] eqn:Hs0; simpl.
    + destruct (decide (sid0 = sid)) as [<-|Hne].
      * rewrite lookup_insert_eq. intros [= <-]. right. eauto.
      * rewrite lookup_insert_ne by done. intros Hs. right. eauto.
    + intros Hs. right. eauto.
  - unfold closeStream. destruct (activeStreams st !! sid0) as [s0|] eqn:Hs0; simpl.
    + destruct (decide (sid0 = sid)) as [<-|Hne].
      * rewrite lookup_insert_eq. intros [= <-]. right. eauto.
      * rewrite lookup_insert_ne by done. intros Hs. right. eauto.
    + intros Hs. right. eauto.
  - unfold handleSSE, getStream, new_response. simpl.
    destruct (activeStreams st !! sid0) as [s0|] eqn:Hs0; simpl.
    + unfold subscribeStream, getStream. simpl. rewrite Hs0. simpl.
      destruct (decide (sid0 = sid)) as [<-|Hne].
      * rewrite lookup_insert_eq. intros [= <-]. right. eauto.
      * rewrite lookup_insert_ne by done. intros Hs. right. eauto.
    + intros Hs. right. eauto.
  - unfold disconnect, closeStream.
    destruct (activeStreams st !! sid0) as [s0|] eqn:Hs0; simpl.
    + destruct (decide (sid0 = sid)) as [<-|Hne].
      * rewrite lookup_insert_eq. intros [= <-]. right. eauto.
      * rewrite lookup_insert_ne by done. intros Hs. right. eauto.
    + intros Hs. right. eauto.
  - intros Hs. apply lookup_delete_Some in Hs as [_ Hs]. right. eauto.
Qed.

(** How one event changes the responses that exist already. *)
Lemma step_responses op st r :
  (r < length (responses st))%nat →
  (length (responses st) ≤ length (responses (step op st)))%nat ∧
  (∀ sid, op = OpSubscribe sid →
     (length (responses st) < length (responses (step op st)))%nat) ∧
  responses (step op st) !! r =
    match op with
    | OpEmit sid d ty now =>
        match activeStreams st !! sid with
        | Some s => notify (listeners s) (mkChunk ty d now) (responses st) !! r
        | None => responses st !! r
        end
    | OpDisconnect res _ _ => end_response res (responses st) !! r
    | _ => responses st !! r
    end.
Proof.
  intros Hr.
  destruct op as [cid q now rnd now'|sid0 d ty now|sid0 reason now|sid0|res sid0 now|sid0];
    simpl.
  - done.
  - unfold streamChunk. destruct (activeStreams st !! sid0) as [s0|]; simpl; [|done].
    by rewrite notify_length.
  - unfold closeStream. by destruct (activeStreams st !! sid0) as [s0|].
  - unfold handleSSE, getStream, new_response. simpl.
    destruct (activeStreams st !! sid0) as [s0|] eqn:Hs0; simpl.
    + unfold subscribeStream, getStream. simpl. rewrite Hs0. simpl.
      rewrite replay_length, length_app. simpl.
      split; [lia|]. split; [intros; lia|].
      rewrite replay_lookup_ne by lia. by apply lookup_app_l.
    + rewrite end_response_length, write_length, length_app. simpl.
      split; [lia|]. split; [intros; lia|].
      rewrite end_response_lookup_ne, write_lookup_ne by lia. by apply lookup_app_l.
  - unfold disconnect, closeStream.
    destruct (activeStreams st !! sid0) as [s0|]; simpl; by rewrite end_response_length.
  - done.
Qed.

Lemma step_handles_ok op st : handles_ok st → handles_ok (step op st).
Proof.
  intros Hok sid s' Hs'.
  assert (Hlen : (length (responses st) ≤ length (responses (step op st)))%nat).
  { destruct (responses st) as [|r0 rs0] eqn:Hrs; [simpl; lia|].
    rewrite <-Hrs. apply (step_responses op st 0). rewrite Hrs. simpl. lia. }
  destruct (step_listeners _ _ _ _ Hs') as [[_ ->]|(s0 & Hs0 & [->|[-> ->]])].
  - split; constructor.
  - destruct (Hok _ _ Hs0) as [Hnd Hfa]. split; [done|].
    eapply Forall_impl; [exact Hfa|]. simpl. intros. lia.
  - destruct (Hok _ _ Hs0) as [Hnd Hfa].
    assert (Hnew : (length (responses st) < length (responses (step (OpSubscribe sid) st)))%nat).
    { simpl. unfold handleSSE, getStream, new_response. simpl. rewrite Hs0.
      unfold subscribeStream, getStream. simpl. rewrite Hs0. simpl.
      rewrite replay_length, length_app. simpl. lia. }
    split.
    + apply NoDup_app. split; [done|]. split; [|apply NoDup_singleton].
      intros x Hx ->%list_elem_of_singleton.
      rewrite Forall_forall in Hfa. specialize (Hfa _ Hx). simpl in Hfa. lia.
    + apply Forall_app. split.
      * eapply Forall_impl; [exact Hfa|]. intros x Hx. cbv beta in Hx |- *. lia.
      * by repeat constructor.
Qed.

Lemma run_handles_ok ops st : handles_ok st → handles_ok (run ops st).
Proof.
  revert st. induction ops as [|op ops IH]; intros st Hok; [done|].
  simpl. apply IH. by apply step_handles_ok.
Qed.

Lemma init_handles_ok : handles_ok init.
Proof. intros sid s Hs. simpl in Hs. by rewrite lookup_empty in Hs. Qed.

(** One event, seen from a subscribed response: it receives the frame of
    the chunk when the event is an accepted [streamChunk] on its stream, and
    nothing otherwise; it stays subscribed. *)
Lemma step_subscribed op st r sid :
  handles_ok st → subscribed r sid st →
  ¬ creates sid op → ¬ disconnects r op →
  subscribed r sid (step op st) ∧
  received r (step op st) = received r st ++ (frame_of <$> emitted sid [op] st).
Proof.
  intros Hok [(resp & Hr & Hopen) Hsub] Hcreate Hdisc.
  assert (Hlt : (r < length (responses st))%nat) by (by eapply lookup_lt_Some).
  destruct (step_responses op st r Hlt) as (Hlen & _ & Hlookup).
  assert (Hstreams : ∀ sid' s', activeStreams (step op st) !! sid' = Some s' →
            (sid' = sid → r ∈ listeners s') ∧ (sid' ≠ sid → r ∉ listeners s')).
  { intros sid' s' Hs'.
    destruct (step_listeners _ _ _ _ Hs') as [[Hc ->]|(s0 & Hs0 & [->|[-> ->]])].
    - split; [intros ->; done|intros _; apply not_elem_of_nil].
    - by apply Hsub.
    - destruct (Hsub _ _ Hs0) as [Hin Hout]. split.
      + intros ->. apply elem_of_app. left. by apply Hin.
      + intros Hne. apply not_elem_of_app. split; [by apply Hout|].
        rewrite list_elem_of_singleton. lia. }
  assert (Hcases :
    (responses (step op st) !! r = Some resp ∧ emitted sid [op] st = []) ∨
    (∃ c, responses (step op st) !! r = Some (mkResponse (written resp ++ [frame_of c]) false) ∧
          emitted sid [op] st = [c])).
  { destruct op as [cid q now rnd now'|sid0 d ty now|sid0 reason now|sid0|res sid0 now|sid0];
      try (left; split; [by rewrite Hlookup|done]).
    - rewrite Hlookup. cbn [emitted]. unfold streamChunk.
      destruct (activeStreams st !! sid0) as [s0|] eqn:Hs0; cbn [fst].
      + destruct (Hok _ _ Hs0) as [Hnd _]. destruct (Hsub _ _ Hs0) as [Hin Hout].
        case_bool_decide as Hsid; cbn [andb].
        * right. eexists. split; [|done]. by apply notify_lookup_once; auto.
        * left. split; [|done]. rewrite notify_lookup_notin; auto.
      + left. split; [done|]. by rewrite andb_false_r.
    - left. split; [|done]. rewrite Hlookup.
      rewrite end_response_lookup_ne; [done|]. intros ->. by apply Hdisc. }
  unfold received.
  destruct Hcases as [[Hr' ->]|(c & Hr' & ->)]; rewrite Hr', Hr; simpl.
  - split; [|by rewrite app_nil_r]. split; [eauto|done].
  - split; [|done]. split; [eauto|done].
Qed.

Lemma emitted_cons sid op ops st :
  emitted sid (op :: ops) st = emitted sid [op] st ++ emitted sid ops (step op st).
Proof. cbn [emitted]. by rewrite app_nil_r. Qed.

Lemma run_subscribed ops : ∀ st r sid,
  handles_ok st → subscribed r sid st →
  Forall (fun op => ¬ creates sid op ∧ ¬ disconnects r op) ops →
  subscribed r sid (run ops st) ∧
  received r (run ops st) = received r st ++ (frame_of <$> emitted sid ops st).
Proof.
  induction ops as [|op ops IH]; intros st r sid Hok Hsub Hops.
  { simpl. by rewrite app_nil_r. }
  apply Forall_cons in Hops as [[Hc Hd] Hops].
  destruct (step_subscribed op st r sid Hok Hsub Hc Hd) as [Hsub1 Hrec1].
  destruct (IH (step op st) r sid (step_handles_ok _ _ Hok) Hsub1 Hops) as [Hsub2 Hrec2].
  split; [done|].
  change (run (op :: ops) st) with (run ops (step op st)).
  by rewrite Hrec2, Hrec1, (emitted_cons sid op ops st), fmap_app, app_assoc.
Qed.

(** Subscribing through [handleSSE]: the new response first gets the
    buffered chunks, in order, and is then a listener of the stream. *)
Lemma subscribe_replays st sid s :
  handles_ok st → activeStreams st !! sid = Some s →
  let r := length (responses st) in
  let st1 := step (OpSubscribe sid) st in
  subscribed r sid st1 ∧ received r st1 = frame_of <$> chunks s.
Proof.
  intros Hok Hs r st1.
  assert (Hr : responses st1 !! r = Some (mkResponse (frame_of <$> chunks s) false)).
  { unfold st1. simpl. unfold handleSSE, getStream, new_response. simpl. rewrite Hs.
    unfold subscribeStream, getStream. simpl. rewrite Hs. simpl.
    rewrite (replay_lookup _ _ _ (mkResponse [] false)); [done| |done].
    by rewrite lookup_app_r, Nat.sub_diag. }
  split; [|unfold received; by rewrite Hr].
  split; [eauto|].
  intros sid' s' Hs'.
  destruct (step_listeners _ _ _ _ Hs') as [[[] _]|(s0 & Hs0 & [Hl|[[= <-] ->]])].
  - assert (sid' ≠ sid) as Hne.
    { intros ->. revert Hs'. unfold st1. simpl. unfold handleSSE, getStream, new_response.
      simpl. rewrite Hs. unfold subscribeStream, getStream. simpl. rewrite Hs. simpl.
      rewrite lookup_insert_eq. intros [= <-]. simpl in Hl.
      rewrite Hs in Hs0. simplify_eq.
      apply (f_equal length) in Hl. rewrite length_app in Hl. simpl in Hl. lia. }
    split; [done|]. intros _ Hin. rewrite Hl in Hin.
    destruct (Hok _ _ Hs0) as [_ Hfa]. rewrite Forall_forall in Hfa.
    specialize (Hfa _ Hin). simpl in Hfa. unfold r in Hfa. lia.
  - split; [intros _; apply elem_of_app; right; by apply list_elem_of_singleton|done].
Qed.

(** The buffer of a stream grows by the accepted chunks, in order. *)
Lemma step_chunks op st sid s' :
  ¬ creates sid op → activeStreams (step op st) !! sid = Some s' →
  ∃ s0, activeStreams st !! sid = Some s0 ∧ chunks s' = chunks s0 ++ emitted sid [op] st.
Proof.
  intros Hc.
  destruct op as [cid q now rnd now'|sid0 d ty now|sid0 reason now|sid0|res sid0 now|sid0];
    cbn [step emitted].
  - simpl in Hc. simpl. rewrite lookup_insert_ne by done.
    intros Hs. exists s'. by rewrite app_nil_r.
  - unfold streamChunk. destruct (activeStreams st !! sid0) as [s0|] eqn:Hs0; cbn [fst snd].
    + case_bool_decide as Hsid; cbn [andb activeStreams].
      * subst. rewrite lookup_insert_eq. intros [= <-]. exists s0. by rewrite app_nil_r.
      * rewrite lookup_insert_ne by done. intros Hs. exists s'. by rewrite !app_nil_r.
    + rewrite andb_false_r. intros Hs. exists s'. by rewrite !app_nil_r.
  - unfold closeStream. destruct (activeStreams st !! sid0) as [s0|] eqn:Hs0; cbn [fst snd].
    + cbn [activeStreams]. destruct (decide (sid0 = sid)) as [->|Hne].
      * rewrite lookup_insert_eq. intros [= <-]. exists s0. by rewrite app_nil_r.
      * rewrite lookup_insert_ne by done. intros Hs. exists s'. by rewrite !app_nil_r.
    + intros Hs. exists s'. by rewrite !app_nil_r.
  - unfold handleSSE, getStream, new_response. cbn [activeStreams].
    destruct (activeStreams st !! sid0) as [s0|] eqn:Hs0.
    + unfold subscribeStream, getStream. cbn [activeStreams]. rewrite Hs0.
      cbn [snd activeStreams]. destruct (decide (sid0 = sid)) as [->|Hne].
      * rewrite lookup_insert_eq. intros [= <-]. exists s0. by rewrite app_nil_r.
      * rewrite lookup_insert_ne by done. intros Hs. exists s'. by rewrite !app_nil_r.
    + cbn [activeStreams]. intros Hs. exists s'. by rewrite !app_nil_r.
  - unfold disconnect, closeStream.
    destruct (activeStreams st !! sid0) as [s0|] eqn:Hs0; cbn [fst snd activeStreams].
    + destruct (decide (sid0 = sid)) as [->|Hne].
      * rewrite lookup_insert_eq. intros [= <-]. exists s0. by rewrite app_nil_r.
      * rewrite lookup_insert_ne by done. intros Hs. exists s'. by rewrite !app_nil_r.
    + intros Hs. exists s'. by rewrite !app_nil_r.
  - cbn [activeStreams]. intros [_ Hs]%lookup_delete_Some. exists s'. by rewrite !app_nil_r.
Qed.

Lemma run_chunks ops : ∀ st sid s',
  Forall (fun op => ¬ creates sid op) ops →
  activeStreams (run ops st) !! sid = Some s' →
  ∃ s0, activeStreams st !! sid = Some s0 ∧ chunks s' = chunks s0 ++ emitted sid ops st.
Proof.
  induction ops as [|op ops IH]; intros st sid s' Hops Hs'.
  { exists s'. simpl. by rewrite app_nil_r. }
  apply Forall_cons in Hops as [Hc Hops].
  change (run (op :: ops) st) with (run ops (step op st)) in Hs'.
  destruct (IH _ _ _ Hops Hs') as (s1 & Hs1 & Hch1).
  destruct (step_chunks _ _ _ _ Hc Hs1) as (s0 & Hs0 & Hch0).
  exists s0. split; [done|].
  by rewrite Hch1, Hch0, (emitted_cons sid op ops st), app_assoc.
Qed.


(** C6.  Take any state the module reaches from its initial state, a stream
    [s] registered in it under [sid], and subscribe a new response through
    [handleSSE].  The response at once holds the frames of the chunks
    buffered so far, in their order.  After any further events, among which
    no stream is created under the same id and the subscriber does not
    disconnect, it holds those frames followed by the frames of exactly the
    chunks that [streamChunk] accepted on [sid] since, in the order of the
    calls; and that is the buffer of the stream, as long as it is registered. *)
Theorem C6_replay_then_live (before after : list Op) (sid : string) (s : Stream) :
  let st := run before init in
  let r := length (responses st) in
  let st1 := step (OpSubscribe sid) st in
  activeStreams st !! sid = Some s →
  Forall (fun op => ¬ creates sid op ∧ ¬ disconnects r op) after →
  received r st1 = frame_of <$> chunks s ∧
  received r (run after st1)
    = (frame_of <$> chunks s) ++ (frame_of <$> emitted sid after st1) ∧
  (∀ s', activeStreams (run after st1) !! sid = Some s' →
     received r (run after st1) = frame_of <$> chunks s').
Proof.
  intros st r st1 Hs Hafter.
  assert (Hok : handles_ok st) by apply run_handles_ok, init_handles_ok.
  destruct (subscribe_replays st sid s Hok Hs) as [Hsub Hreplay].
  fold r st1 in Hsub, Hreplay.
  assert (Hok1 : handles_ok st1) by by apply step_handles_ok.
  destruct (run_subscribed after st1 r sid Hok1 Hsub Hafter) as [_ Hlive].
  rewrite Hreplay in Hlive.
  split; [done|]. split; [done|].
  intros s' Hs'.
  destruct (run_chunks after st1 sid s') as (s1 & Hs1 & Hch); [|done|].
  { eapply Forall_impl; [exact Hafter|]. by intros op [? _]. }
  destruct (step_chunks (OpSubscribe sid) st sid s1) as (s0 & Hs0 & Hch0); [by intros []|done|].
  rewrite Hs in Hs0. simplify_eq. simpl in Hch0. rewrite app_nil_r in Hch0.
  by rewrite Hlive, Hch, Hch0, fmap_app.
Qed.

End StreamingProofs.

Section StreamingInstances.
Import Streaming Demo.




Lemma C6_replay_then_live_witness :
  received 0 (run (before_subscribe ++ [OpSubscribe demo_sid] ++ after_subscribe) init)
  = [ mkFrame (Some "result") "0"; mkFrame (Some "result") "1";
      mkFrame (Some "result") "2"; mkFrame (Some "complete") "done" ].
Proof.
  assert (Hs : ∃ s, activeStreams (run before_subscribe init) !! demo_sid = Some s ∧
                    chunks s = [mkChunk "result" "0" 2; mkChunk "result" "1" 3]).
  { eexists. split; [vm_compute; reflexivity|reflexivity]. }
  destruct Hs as (s & Hs & Hchunks).
  destruct (C6_replay_then_live before_subscribe after_subscribe demo_sid s Hs)
    as (_ & Hlive & _).
  - repeat constructor; simpl; intros Hbad; try done; discriminate.
  - unfold run in *. rewrite !foldl_app. simpl foldl at 2.
    etrans; [exact Hlive|]. rewrite Hchunks. vm_compute. reflexivity.
Defined.

End StreamingInstances.

(** *** C8: the statistics recorders *)

Section StatsProofs.
Import Stats.







(** The buffer in action: of 51 recorded searches the first is gone. *)
Example recordSearch_drops_oldest :
  let calls := (fun i => mkSearchCall (pretty i) true 10 "external-mcp" 0 0) <$> seq 0 51 in
  rec_query <$> queries (recordSearches calls (searchStats0 0)) = pretty <$> seq 1 50.
Proof. vm_compute. reflexivity. Qed.

End StatsProofs.

(** * Further properties of the code *)

(** ** Intent and category detection *)

Section IntentProofs.
Import JsString Semantic Tools.

Lemma toLowerCase_app (a b : string) :
  toLowerCase (a +:+ b) = toLowerCase a +:+ toLowerCase b.
Proof.
  induction a as [|c a IH]; [done|].
  change (String (lower_ascii c) (toLowerCase (a +:+ b))
          = String (lower_ascii c) (toLowerCase a +:+ toLowerCase b)).
  by rewrite IH.
Qed.

Lemma startsWith_app (p a s : string) :
  startsWith p a = true → startsWith p (a +:+ s) = true.
Proof.
  revert a. induction p as [|c p IH]; intros a; [done|].
  destruct a as [|x a]; [done|].
  change (bool_decide (c = x) && startsWith p a = true →
          bool_decide (c = x) && startsWith p (a +:+ s) = true).
  rewrite !andb_true_iff. intros [? ?]. auto.
Qed.

Lemma includes_app_r (p a s : string) :
  includes p a = true → includes p (a +:+ s) = true.
Proof.
  induction a as [|x a IH].
  - destruct p as [|c p]; [by destruct s|done].
  - change (startsWith p (String x a) || includes p a = true →
            startsWith p (String x a +:+ s) || includes p (a +:+ s) = true).
    rewrite !orb_true_iff. intros [H|H]; [left; by apply startsWith_app|right; auto].
Qed.

Lemma includes_app_l (p a s : string) :
  includes p a = true → includes p (s +:+ a) = true.
Proof.
  intros Ha. induction s as [|x s IH]; [done|].
  change (startsWith p (String x (s +:+ a)) || includes p (s +:+ a) = true).
  rewrite IH. apply orb_true_r.
Qed.

Lemma any_includes_mono (ws : list string) (before q after : string) :
  any_includes ws q = true → any_includes ws (before +:+ q +:+ after) = true.
Proof.
  unfold any_includes. rewrite !existsb_exists.
  intros (w & Hw & Hin). exists w. split; [done|].
  by apply includes_app_l, includes_app_r.
Qed.

(** A pattern word without a space matches in [a ++ " " ++ b] where it
    matches in [a] or in [b]: no match runs across the space. *)
Lemma startsWith_app_space (p a b : string) :
  has_char space p = false →
  startsWith p (a +:+ String space b) = startsWith p a.
Proof.
  revert a. induction p as [|c p IH]; intros a Hp; [done|].
  simpl in Hp. apply orb_false_iff in Hp as [Hc Hp].
  destruct a as [|x a].
  - change (bool_decide (c = space) && startsWith p b = false). by rewrite Hc.
  - change (bool_decide (c = x) && startsWith p (a +:+ String space b)
            = bool_decide (c = x) && startsWith p a).
    by rewrite IH.
Qed.

Lemma includes_app_space (p a b : string) :
  has_char space p = false → p ≠ EmptyString →
  includes p (a +:+ String space b) = includes p a || includes p b.
Proof.
  intros Hp Hne. induction a as [|x a IH].
  - change (startsWith p (EmptyString +:+ String space b) || includes p b
            = (startsWith p EmptyString || false) || includes p b).
    rewrite startsWith_app_space by done. by destruct p.
  - change (startsWith p (String x a +:+ String space b) || includes p (a +:+ String space b)
            = (startsWith p (String x a) || includes p a) || includes p b).
    rewrite startsWith_app_space, IH by done. by rewrite orb_assoc.
Qed.

Lemma any_includes_app_space (ws : list string) (a b : string) :
  Forall (fun p => has_char space p = false ∧ p ≠ EmptyString) ws →
  any_includes ws (a +:+ String space b) = any_includes ws a || any_includes ws b.
Proof.
  unfold any_includes. induction 1 as [|p ws [Hp Hne] _ IH]; [done|].
  simpl. rewrite includes_app_space, IH by done.
  destruct (includes p a), (includes p b),
    (existsb (fun w => includes w a) ws), (existsb (fun w => includes w b) ws); done.
Qed.

Ltac plain_words :=
  repeat (constructor; [split; [reflexivity|discriminate]|]); constructor.

Lemma detectIntent_app_space (q b : string) :
  detectIntent (q +:+ String space b) =
    if any_includes ["how"; "why"; "what"; "when"; "where"; "who"] (toLowerCase q)
       || any_includes ["how"; "why"; "what"; "when"; "where"; "who"] (toLowerCase b)
    then IQuestion
    else if any_includes ["find"; "search"; "look"; "locate"] (toLowerCase q)
            || any_includes ["find"; "search"; "look"; "locate"] (toLowerCase b)
    then ISearch
    else if any_includes ["latest"; "new"; "recent"; "today"] (toLowerCase q)
            || any_includes ["latest"; "new"; "recent"; "today"] (toLowerCase b)
    then ICurrent
    else if any_includes ["best"; "top"; "rank"; "compare"] (toLowerCase q)
            || any_includes ["best"; "top"; "rank"; "compare"] (toLowerCase b)
    then IRanking
    else IGeneral.
Proof.
  unfold detectIntent. rewrite toLowerCase_app.
  change (toLowerCase (String space b)) with (String space (toLowerCase b)).
  by rewrite !any_includes_app_space by plain_words.
Qed.

(** X1.  The enhancement that [semantic_search] applies to a query never
    changes the intent that [detectIntent] finds: the enhanced query, which
    is the one that is searched and cached, has the intent of the original
    query. *)
Theorem X1_enhanced_query_keeps_intent (q : string) :
  detectIntent (enhanceQuery q) = detectIntent q.
Proof.
  unfold enhanceQuery. cbn [intent analyzeSemantics].
  destruct (detectIntent q) eqn:E; try done.
  - change (q +:+ " tutorial guide") with (q +:+ String space "tutorial guide").
    rewrite detectIntent_app_space. unfold detectIntent in E.
    destruct (any_includes ["how"; "why"; "what"; "when"; "where"; "who"] (toLowerCase q));
      [done|].
    by repeat case_match.
  - change (q +:+ " 2025 latest") with (q +:+ String space "2025 latest").
    rewrite detectIntent_app_space. unfold detectIntent in E.
    destruct (any_includes ["how"; "why"; "what"; "when"; "where"; "who"] (toLowerCase q));
      [done|].
    destruct (any_includes ["find"; "search"; "look"; "locate"] (toLowerCase q)); [done|].
    destruct (any_includes ["latest"; "new"; "recent"; "today"] (toLowerCase q)); [done|].
    by repeat case_match.
  - change (q +:+ " best comparison") with (q +:+ String space "best comparison").
    rewrite detectIntent_app_space. unfold detectIntent in E.
    destruct (any_includes ["how"; "why"; "what"; "when"; "where"; "who"] (toLowerCase q));
      [done|].
    destruct (any_includes ["find"; "search"; "look"; "locate"] (toLowerCase q)); [done|].
    destruct (any_includes ["latest"; "new"; "recent"; "today"] (toLowerCase q)); [done|].
    destruct (any_includes ["best"; "top"; "rank"; "compare"] (toLowerCase q)); [done|].
    done.
Qed.

(** X2.  Text around a query can only move its intent up in the order in
    which the patterns are tried (question, search, current, ranking,
    general): whatever is put before and after [q], the intent of the
    longer text does not come later in that order than the intent of [q].
    In particular a question stays a question. *)
Theorem X2_intent_rank_antitone (before q after : string) :
  (intent_rank (detectIntent (before +:+ q +:+ after)) ≤ intent_rank (detectIntent q))%nat.
Proof.
  unfold detectIntent. rewrite !toLowerCase_app.
  pose proof (any_includes_mono ["how"; "why"; "what"; "when"; "where"; "who"]
                (toLowerCase before) (toLowerCase q) (toLowerCase after)) as H1.
  pose proof (any_includes_mono ["find"; "search"; "look"; "locate"]
                (toLowerCase before) (toLowerCase q) (toLowerCase after)) as H2.
  pose proof (any_includes_mono ["latest"; "new"; "recent"; "today"]
                (toLowerCase before) (toLowerCase q) (toLowerCase after)) as H3.
  pose proof (any_includes_mono ["best"; "top"; "rank"; "compare"]
                (toLowerCase before) (toLowerCase q) (toLowerCase after)) as H4.
  destruct (any_includes ["how"; "why"; "what"; "when"; "where"; "who"] (toLowerCase q));
    [rewrite H1 by done; simpl; lia|].
  destruct (any_includes ["find"; "search"; "look"; "locate"] (toLowerCase q));
    [rewrite H2 by done; repeat case_match; simpl; lia|].
  destruct (any_includes ["latest"; "new"; "recent"; "today"] (toLowerCase q));
    [rewrite H3 by done; repeat case_match; simpl; lia|].
  destruct (any_includes ["best"; "top"; "rank"; "compare"] (toLowerCase q));
    [rewrite H4 by done; repeat case_match; simpl; lia|].
  repeat case_match; simpl; lia.
Qed.

Lemma find_ext {A} (f g : A → bool) (l : list A) :
  (∀ x, f x = g x) → List.find f l = List.find g l.
Proof. intros Hfg. induction l as [|x l IH]; simpl; [done|]. by rewrite Hfg, IH. Qed.

Lemma existsb_same_elements {A} (f : A → bool) (l l' : list A) :
  (∀ x, x ∈ l ↔ x ∈ l') → existsb f l = existsb f l'.
Proof.
  intros Hll. apply eq_true_iff_eq. rewrite !existsb_exists.
  split; intros (x & Hx & Hf); exists x; (split; [|done]);
    apply list_elem_of_In, Hll, list_elem_of_In, Hx.
Qed.

(** X3.  The category depends on the keywords as a set only: two keyword
    lists with the same elements get the same category, whatever their
    order and repetitions.  The category is general exactly when no keyword
    is a word of the category table. *)
Theorem X3_category_depends_on_keyword_set (kws kws' : list string) :
  (∀ k, k ∈ kws ↔ k ∈ kws') →
  detectCategory kws = detectCategory kws' ∧
  (detectCategory kws = CGeneral ↔
   ∀ k cw, k ∈ kws → cw ∈ categories → k ∉ cw.2).
Proof.
  intros Hsame. split.
  - unfold detectCategory. erewrite find_ext; [done|].
    intros cw. by apply existsb_same_elements.
  - unfold detectCategory.
    destruct (List.find _ categories) as [cw|] eqn:Hfind.
    + apply find_some in Hfind as [Hcw Hex].
      apply existsb_exists in Hex as (k & Hk & Hin). apply bool_decide_eq_true in Hin.
      split.
      * intros Hgen. exfalso. revert Hcw Hgen. unfold categories. simpl.
        intros [<-|[<-|[<-|[<-|[<-|[]]]]]]; done.
      * intros Hnone. exfalso.
        apply (Hnone k cw); [by apply list_elem_of_In|by apply list_elem_of_In|done].
    + split; [|done]. intros _ k cw Hk Hcw Hin.
      apply list_elem_of_In in Hcw.
      pose proof (find_none _ _ Hfind cw Hcw) as Hno. simpl in Hno.
      assert (existsb (fun k0 => bool_decide (k0 ∈ cw.2)) kws = true) as Hyes.
      { apply existsb_exists. exists k. split; [by apply list_elem_of_In|].
        by apply bool_decide_eq_true. }
      congruence.
Qed.

Lemma enhanceQuery_current_example :
  enhanceQuery "latest rocq release" = "latest rocq release 2025 latest" ∧
  detectIntent (enhanceQuery "latest rocq release") = ICurrent.
Proof. split; reflexivity. Qed.

Lemma X3_category_depends_on_keyword_set_witness :
  detectCategory ["machine"; "python"] = detectCategory ["python"; "machine"; "python"].
Proof.
  apply (X3_category_depends_on_keyword_set ["machine"; "python"]
           ["python"; "machine"; "python"]).
  intros k. rewrite !elem_of_cons, !elem_of_nil. tauto.
Defined.

End IntentProofs.

(** ** The query cache, the semantic index and the tools *)

Section ToolsProofs.
Import JsString Semantic RateLimiter QueryCache Tools.
Context (hostname : string → option string).

(** What a live answer of [searchQuery] stores. *)
Lemma searchQuery_live q cid env (st : QueryCache.State) :
  source (searchQuery hostname q cid env st).1 = SrcLive →
  ∃ rs,
    let key := trim (toLowerCase q) in
    let e := mkEntry q rs (now_store env) (analyzeSemantics q) cid 0 in
    searchQuery hostname q cid env st =
      (Live q rs (length rs) (analyzeSemantics q) (now_return env),
       {| queryCache := evictOldest (cache_set key e (queryCache st));
          semanticIndex :=
            indexKeywords key (keywords (analyzeSemantics q)) (semanticIndex st) |}).
Proof.
  unfold searchQuery.
  destruct (lookup_fresh _ (now_lookup env) (queryCache st)) as [cached|]; [done|].
  unfold live_search.
  destruct (upstream env) as [msg|msg|[] err [raws|]]; simpl; try done.
  destruct (build_results hostname _ 0 raws) as [rs|]; simpl; [|done].
  intros _. by exists rs.
Qed.

Lemma indexKeywords_append key (kws : list string) : ∀ (index : gmap string (list string)) kw l,
  index !! kw = Some l →
  ∃ more, indexKeywords key kws index !! kw = Some (l ++ more).
Proof.
  induction kws as [|k kws IH]; intros index kw l Hl.
  { exists []. by rewrite app_nil_r. }
  unfold indexKeywords in *. simpl.
  destruct (decide (k = kw)) as [->|Hne].
  - destruct (IH (<[kw := default [] (index !! kw) ++ [key]]> index) kw (l ++ [key]))
      as [more Hmore].
    + by rewrite lookup_insert_eq, Hl.
    + exists ([key] ++ more). by rewrite app_assoc.
  - apply IH. by rewrite lookup_insert_ne.
Qed.

Lemma indexKeywords_elem key (kws : list string) : ∀ (index : gmap string (list string)) kw,
  kw ∈ kws →
  ∃ l, indexKeywords key kws index !! kw = Some l ∧ key ∈ l.
Proof.
  induction kws as [|k kws IH]; intros index kw Hkw; [by apply elem_of_nil in Hkw|].
  unfold indexKeywords in *. simpl.
  destruct (decide (k = kw)) as [->|Hne].
  - destruct (indexKeywords_append key kws
                (<[kw := default [] (index !! kw) ++ [key]]> index) kw
                (default [] (index !! kw) ++ [key])) as [more Hmore].
    + by rewrite lookup_insert_eq.
    + unfold indexKeywords in Hmore. eexists. split; [exact Hmore|].
      rewrite !elem_of_app, list_elem_of_singleton. auto.
  - apply IH. apply elem_of_cons in Hkw as [?|?]; [congruence|done].
Qed.

Lemma step_index_append op (st : QueryCache.State) kw l :
  semanticIndex st !! kw = Some l →
  ∃ more, semanticIndex (step hostname op st) !! kw = Some (l ++ more).
Proof.
  intros Hl. destruct op as [q cid env|q now now']; simpl.
  - destruct (searchQuery_cache hostname q cid env st)
      as [[_ ->]|(_ & _ & e & _ & _ & _ & _ & ->)].
    + exists []. by rewrite app_nil_r.
    + by apply indexKeywords_append.
  - unfold getCachedResults.
    destruct (cache_get _ (queryCache st)); simpl; exists []; by rewrite app_nil_r.
Qed.

Lemma run_index_append ops : ∀ (st : QueryCache.State) kw l,
  semanticIndex st !! kw = Some l →
  ∃ more, semanticIndex (run hostname ops st) !! kw = Some (l ++ more).
Proof.
  induction ops as [|op ops IH]; intros st kw l Hl.
  { exists []. by rewrite app_nil_r. }
  destruct (step_index_append op st kw l Hl) as [m1 H1].
  destruct (IH (step hostname op st) kw (l ++ m1) H1) as [m2 H2].
  exists (m1 ++ m2). simpl. by rewrite app_assoc.
Qed.

(** X4.  Store and look up.  After a live answer to [q] in a cache with
    room, [get_cached_results] for any query with the same normalized key
    finds the entry: the results of the live answer, the original query
    text, hit count 1, age counted from the time of the store.  And
    [searchQuery] for such a query answers from the cache, with the same
    results and without changing the state, while less than 300,000 ms have
    passed since the store. *)
Theorem X4_live_answer_is_found_under_normalized_key
    q q' cid env (st : QueryCache.State) now now' cid' env' :
  trim (toLowerCase q') = trim (toLowerCase q) →
  source (searchQuery hostname q cid env st).1 = SrcLive →
  (length (queryCache st) < 1000)%nat →
  now_lookup env' - now_store env < 300000 →
  let live := searchQuery hostname q cid env st in
  (∃ hit, (getCachedResults q' now now' live.2).1 = Some hit ∧
          results (found hit) = response_results live.1 ∧
          query (found hit) = q ∧
          hitCount (found hit) = 1 ∧
          age hit = now - now_store env) ∧
  source (searchQuery hostname q' cid' env' live.2).1 = SrcCache ∧
  response_results (searchQuery hostname q' cid' env' live.2).1 = response_results live.1 ∧
  (searchQuery hostname q' cid' env' live.2).2 = live.2.
Proof.
  intros Hkey Hlive Hroom Hyoung live.
  destruct (searchQuery_live q cid env st Hlive) as [rs Hq]. cbv zeta in Hq.
  unfold live. rewrite Hq. cbn [fst snd response_results].
  set (e := mkEntry q rs (now_store env) (analyzeSemantics q) cid 0).
  assert (Hget : cache_get (trim (toLowerCase q'))
                   (evictOldest (cache_set (trim (toLowerCase q)) e (queryCache st))) = Some e).
  { rewrite evictOldest_under.
    - rewrite Hkey. apply cache_get_set_eq.
    - rewrite cache_set_length. unfold MAX_ENTRIES. case_decide; lia. }
  split.
  - unfold getCachedResults. cbn [queryCache]. rewrite Hget. cbn [fst].
    eexists. split; [done|]. by cbn.
  - unfold searchQuery, lookup_fresh. cbn [queryCache]. rewrite Hget.
    cbn [timestamp e]. rewrite bool_decide_eq_true_2 by (unfold CACHE_TTL; lia).
    by cbn.
Qed.

(** X5.  The semantic index is append-only.  Whatever sequence of searches
    and cached-result lookups runs, the list of cache keys recorded for a
    keyword keeps what it had, in order, and only grows at its end; no call
    removes a keyword or a key, not even when the cache entry of the key is
    evicted or overwritten. *)
Theorem X5_semantic_index_append_only (ops : list Op) (st : QueryCache.State)
    (kw : string) (l : list string) :
  semanticIndex st !! kw = Some l →
  ∃ more, semanticIndex (run hostname ops st) !! kw = Some (l ++ more).
Proof. apply run_index_append. Qed.

(** X6.  Every keyword of a query that was answered live maps to the
    normalized key of the query in the semantic index, at once and after
    any further searches and lookups. *)
Theorem X6_keywords_of_live_answer_are_indexed
    q cid env (st : QueryCache.State) (ops : list Op) (kw : string) :
  source (searchQuery hostname q cid env st).1 = SrcLive →
  kw ∈ keywords (analyzeSemantics q) →
  ∃ l, semanticIndex (run hostname ops (searchQuery hostname q cid env st).2) !! kw = Some l ∧
       trim (toLowerCase q) ∈ l.
Proof.
  intros Hlive Hkw.
  destruct (searchQuery_live q cid env st Hlive) as [rs Hq]. cbv zeta in Hq.
  rewrite Hq. cbn [snd].
  destruct (indexKeywords_elem (trim (toLowerCase q)) _ (semanticIndex st) kw Hkw)
    as (l & Hl & Hin).
  match goal with |- context [run hostname ops ?st1] =>
    destruct (run_index_append ops st1 kw l Hl) as [more Hmore] end.
  exists (l ++ more). split; [done|]. apply elem_of_app. by left.
Qed.

(** X7.  The two freshness tests disagree at the boundary.  For an entry
    of age [a] (one clock reading), [get_cached_results] reports it stale
    exactly when [a > 300000], and [searchQuery] refuses to serve it exactly
    when [a >= 300000]: an entry reported stale is never served, and an
    entry that is exactly 300,000 ms old is the one case that is not served
    although it is reported as not stale. *)
Theorem X7_stale_flag_and_freshness_boundary q now (st : QueryCache.State) entry :
  cache_get (trim (toLowerCase q)) (queryCache st) = Some entry →
  ∃ hit, (getCachedResults q now now st).1 = Some hit ∧
    let fresh := lookup_fresh (trim (toLowerCase q)) now (queryCache st) in
    (isStale hit = true ↔ 300000 < now - timestamp entry) ∧
    (fresh = None ↔ 300000 ≤ now - timestamp entry) ∧
    (isStale hit = true → fresh = None) ∧
    (isStale hit = false ∧ fresh = None ↔ now - timestamp entry = 300000).
Proof.
  intros Hget. unfold getCachedResults, lookup_fresh. rewrite Hget. cbn [fst].
  eexists. split; [done|]. cbn [isStale]. unfold CACHE_TTL.
  repeat case_bool_decide; repeat split; intros; try done; try lia;
    destruct_and?; try done; lia.
Qed.

(** X8.  [web_search] charges the quota before anything else.  For a
    client id that names no inherited property: a call that is admitted
    leaves the caller's window as the pruned window with [now] appended,
    whether the answer then comes from the cache, from the upstream service,
    is an error result, or whether the call throws because the query is
    missing.  A call that is denied returns the rate-limit error and leaves
    the query cache and the semantic index untouched. *)
Theorem X8_web_search_charges_quota_first
    (input : ToolInput) cid now env (g : Global) :
  cid ∉ object_prototype_names →
  let w := filter (fun t => now - 600000 < t) (default [] (limiter g !! cid)) in
  let out := web_search hostname input cid now env g in
  ((length w < 100)%nat →
     limiter out.2 = <[cid := w ++ [now]]> (limiter g) ∧
     (∀ r, out.1 ≠ Returned (RateLimited r)) ∧
     (input_query input = None → ∃ message, out.1 = Threw message ∧ store out.2 = store g)) ∧
  ((100 ≤ length w)%nat →
     limiter out.2 = <[cid := w]> (limiter g) ∧
     store out.2 = store g ∧
     ∃ r, out.1 = Returned (RateLimited r) ∧ allowed r = false ∧ remaining r = 0).
Proof.
  intros Hcid w out. unfold out, web_search.
  rewrite (bool_decide_eq_false_2 (cid ∈ object_prototype_names)) by done. split.
  - intros Hlt.
    pose proof (checkRateLimit_grant now cid (limiter g)) as Hg. simpl in Hg.
    rewrite Hg by done. cbn [allowed negb].
    destruct (input_query input) as [q|].
    + destruct (searchQuery hostname q cid env (store g)) as [result store1].
      cbn [fst snd limiter]. split; [done|]. split; [done|]. done.
    + cbn [fst snd limiter store]. split; [done|]. split; [done|]. eauto.
  - intros Hge.
    pose proof (checkRateLimit_deny now cid (limiter g) Hge) as Hd. simpl in Hd.
    rewrite Hd. cbn [allowed negb fst snd limiter store]. eauto 10.
Qed.

(** X9.  Only [web_search] is rate limited, and a rate-limited call is not
    an HTTP error.  For a client (whose id names no inherited property)
    whose window is full, a [web_search]
    request is answered with status 200 and the rate-limit error as its
    result, while a [semantic_search] request of the same client at the same
    time is answered with status 200 and the result of the search for the
    enhanced query; the window of the client is not touched by it. *)
Theorem X9_semantic_search_is_not_rate_limited
    (q : string) (cid : string) (env : RequestEnv) (g : Global) :
  cid ∉ object_prototype_names →
  allowed (checkRateLimit (rate_now env) cid (limiter g)).1 = false →
  let request act :=
    mkRequest "POST" (Some (mkParams (Some act) (Some (mkInput (Some q) None)) (Some cid))) in
  let limited := handler hostname (request "web_search") env g in
  let served := handler hostname (request "semantic_search") env g in
  (∃ r, limited.1 = Some (mkHttp 200 (Success "web_search" (RateLimited r) (response_now env))) ∧
        allowed r = false) ∧
  store limited.2 = store g ∧
  served.1 = Some (mkHttp 200
               (Success "semantic_search"
                  (SemanticSearched
                     (searchQuery hostname (enhanceQuery q) cid (search_env env) (store g)).1
                     (analyzeSemantics q))
                  (response_now env))) ∧
  limiter served.2 = limiter g ∧
  store served.2 = (searchQuery hostname (enhanceQuery q) cid (search_env env) (store g)).2.
Proof.
  intros Hcid Hfull request limited served.
  unfold limited, served, request, handler, execute, web_search, semantic_search.
  cbn [method params action input clientId from_option input_query].
  unfold Datatypes.id. cbn [input_query].
  rewrite (bool_decide_eq_false_2 (cid ∈ object_prototype_names)) by done.
  rewrite !(bool_decide_eq_false_2 (_ = "OPTIONS")) by done.
  rewrite !(bool_decide_eq_false_2 (_ = "")) by done.
  rewrite (bool_decide_eq_true_2 ("web_search" = "web_search")) by done.
  rewrite (bool_decide_eq_false_2 ("semantic_search" = "web_search")) by done.
  rewrite (bool_decide_eq_true_2 ("semantic_search" = "semantic_search")) by done.
  destruct (checkRateLimit (rate_now env) cid (limiter g)) as [r limiter1].
  cbn [fst] in Hfull. rewrite Hfull. cbn [negb fst snd store].
  destruct (searchQuery hostname (enhanceQuery q) cid (search_env env) (store g))
    as [result store1].
  cbn [fst snd limiter store]. eauto 10.
Qed.

Ltac status_case :=
  eexists; (split; [done|]); cbn [status fst snd store from_option];
  repeat match goal with
         | |- _ ∧ _ => split
         | |- _ ↔ _ => split
         end;
  try done; naive_solver.

(** X10.  The status codes of the handler.  For a request that is not an
    OPTIONS request and has parameters, the handler always answers, with
    status 200, 400 or 500.  It answers 400 exactly when the action is
    missing, empty, or names neither a tool nor an inherited property of
    the tool table, and then no state changes.  An action that names an
    inherited property (such as "constructor") passes the validity test and
    is answered with 500.  Status 500 has three causes only: such an action,
    a query missing from the input, or a [web_search] for a client id that
    names an inherited property; in each of them the cache and the index
    are unchanged. *)
Theorem X10_handler_status_codes (req : Request) (p : Params) (env : RequestEnv) (g : Global) :
  method req ≠ "OPTIONS" →
  params req = Some p →
  let out := handler hostname req env g in
  ∃ resp, out.1 = Some resp ∧
    (status resp = 200 ∨ status resp = 400 ∨ status resp = 500) ∧
    (status resp = 400 ↔
     ∀ act, action p = Some act → (act ∉ tool_names) ∧ (act ∉ object_prototype_names)) ∧
    (status resp = 400 → out.2 = g) ∧
    ((∃ act, action p = Some act ∧ act ∈ object_prototype_names) →
       resp = mkHttp 500 (Failure "tool.execute is not a function" (default "" (action p))) ∧
       out.2 = g) ∧
    (status resp = 500 →
       ((∃ act, action p = Some act ∧ act ∈ object_prototype_names) ∨
        input_query (default (mkInput None None) (input p)) = None ∨
        (action p = Some "web_search" ∧
         default "anonymous" (clientId p) ∈ object_prototype_names)) ∧
       store out.2 = store g).
Proof.
  intros Hmethod Hparams out. unfold out, handler.
  rewrite bool_decide_eq_false_2 by done. rewrite Hparams.
  assert (Hin : ∀ act, act ∈ tool_names ↔
            act = "web_search" ∨ act = "semantic_search" ∨
            act = "get_cached_results" ∨ act = "cache_status").
  { intros act. unfold tool_names. rewrite !elem_of_cons, elem_of_nil. tauto. }
  assert (Htools : ∀ act, act ∈ tool_names → act ∉ object_prototype_names).
  { intros act Ht. apply Hin in Ht. unfold object_prototype_names.
    rewrite !not_elem_of_cons. destruct Ht as [-> | [-> | [-> | ->]]];
      repeat split; try discriminate; apply not_elem_of_nil. }
  assert (Hemp : ("" ∉ tool_names) ∧ ("" ∉ object_prototype_names)).
  { unfold tool_names, object_prototype_names. rewrite !not_elem_of_cons.
    repeat split; try discriminate; apply not_elem_of_nil. }
  destruct (action p) as [act|] eqn:Hact; last first.
  { status_case. }
  case_bool_decide as Hempty.
  { subst act. status_case. }
  unfold execute.
  destruct (decide (act ∈ tool_names)) as [Htool|Hnotool].
  - pose proof (Htools act Htool) as Hnoproto. pose proof Htool as Htool'.
    apply Hin in Htool.
    unfold web_search, semantic_search, get_cached_results, cache_status.
    set (inp := default (mkInput None None) (input p)).
    set (cid := default "anonymous" (clientId p)).
    destruct Htool as [-> | [-> | [-> | ->]]];
      repeat (rewrite (bool_decide_eq_false_2 (_ = _)) by done);
      rewrite (bool_decide_eq_true_2 (_ = _)) by done.
    + destruct (bool_decide (cid ∈ object_prototype_names)) eqn:Hcid.
      { apply bool_decide_eq_true in Hcid. status_case. }
      destruct (checkRateLimit _ _ _) as [r limiter1]. destruct (allowed r); cbn [negb].
      * destruct (input_query inp) as [q|] eqn:Hq.
        -- destruct (searchQuery _ _ _ _ _) as [result store1]. status_case.
        -- status_case.
      * status_case.
    + destruct (input_query inp) as [q|] eqn:Hq.
      * destruct (searchQuery _ _ _ _ _) as [result store1]. status_case.
      * status_case.
    + destruct (input_query inp) as [q|] eqn:Hq.
      * destruct (getCachedResults _ _ _ _) as [found store1]. status_case.
      * status_case.
    + status_case.
  - assert (Hne : act ≠ "web_search" ∧ act ≠ "semantic_search" ∧
                  act ≠ "get_cached_results" ∧ act ≠ "cache_status").
    { repeat split; intros ->; apply Hnotool, Hin; auto. }
    destruct Hne as (? & ? & ? & ?).
    repeat (rewrite (bool_decide_eq_false_2 (act = _)) by done).
    destruct (bool_decide (act ∈ object_prototype_names)) eqn:Hproto.
    + apply bool_decide_eq_true in Hproto. status_case.
    + apply bool_decide_eq_false in Hproto. status_case.
Qed.

End ToolsProofs.

(** ** The orchestrator

    [this.servers] is a plain object, modelled as a finite map.  A server
    name that names an inherited property of [Object.prototype] is not
    [undefined] in the object although it is no entry of the map; the
    theorems that range over all server names exclude these names. *)

Section OrchestratorOpsProofs.
Import Orchestrator OrchestratorOps.

Lemma registry_other webUrl bubbleUrl (serverName : string) :
  serverName ≠ "webSearchMCP" → serverName ≠ "bubbleSearch" →
  servers (initializeServers webUrl bubbleUrl) !! serverName = None.
Proof.
  intros H1 H2. simpl. rewrite !lookup_insert_ne by done. apply lookup_empty.
Qed.

Ltac orch_run Hreg :=
  repeat first
    [ progress (unfold mbind, M_bind, mret, M_ret, getServer, request, setHealth)
    | progress (cbn beta iota zeta delta
                  [fst snd calls servers serverHealth url report_status])
    | rewrite Hreg
    | rewrite registry_web
    | rewrite registry_bubble ].

Ltac case_reply :=
  match goal with
  | |- context [match ?r with Ok _ => _ | Err _ => _ end] => destruct r as [data'|m']
  end.

(** [fallbackSearch] in general: one search request to the alternate. *)
Lemma fallbackSearch_any net now query primary webUrl bubbleUrl (w : World) :
  servers w = servers (initializeServers webUrl bubbleUrl) →
  let altName := if bool_decide (primary = "webSearchMCP") then "bubbleSearch"
                 else "webSearchMCP" in
  let altUrl := if bool_decide (primary = "webSearchMCP") then bubbleUrl else webUrl in
  let alternate := SearchPost (altUrl +:+ "/search") query in
  let out := fallbackSearch net now query primary w in
  calls out.2 = calls w ++ [alternate] ∧
  serverHealth out.2 = serverHealth w ∧
  servers out.2 = servers w ∧
  out.1 = match net (calls w) alternate with
          | Ok data =>
              mkResult true (Some altName) (Some data) true (Some primary) None None (Some now)
          | Err message =>
              mkResult false None None false None (Some "All search servers unavailable")
                (Some message) None
          end.
Proof.
  intros Hreg altName altUrl alternate out. subst out alternate altName altUrl.
  unfold fallbackSearch. case_bool_decide; orch_run Hreg;
    by destruct (net (calls w) _).
Qed.

(** [executeSearch] on a registered server, step by step. *)
Lemma executeSearch_registered net now query serverName srv webUrl bubbleUrl (w : World) :
  servers w = servers (initializeServers webUrl bubbleUrl) →
  servers w !! serverName = Some srv →
  let probe := HealthGet (url srv +:+ "/health") in
  let search := SearchPost (url srv +:+ "/search") query in
  let w1 := {| servers := servers w;
               serverHealth :=
                 <[serverName := health_of_reply (net (calls w) probe) now]> (serverHealth w);
               calls := calls w ++ [probe] |} in
  let w2 := {| servers := servers w; serverHealth := serverHealth w1;
               calls := (calls w ++ [probe]) ++ [search] |} in
  executeSearch net now query serverName w =
    match net (calls w) probe with
    | Ok _ =>
        match net (calls w ++ [probe]) search with
        | Ok data =>
            (mkResult true (Some serverName) (Some data) false None None None (Some now), w2)
        | Err _ => fallbackSearch net now query serverName w2
        end
    | Err _ => fallbackSearch net now query serverName w1
    end.
Proof.
  intros Hreg Hsrv probe search w1 w2. subst w1 w2 probe search.
  unfold executeSearch, checkHealth. orch_run Hsrv.
  destruct (net (calls w) (HealthGet (url srv +:+ "/health"))) as [d|m];
    orch_run Hsrv; cbn [health_of_reply]; [|done].
  by destruct (net (calls w ++ [HealthGet (url srv +:+ "/health")])
                 (SearchPost (url srv +:+ "/search") query)).
Qed.

Lemma executeSearch_unregistered net now query serverName (w : World) :
  servers w !! serverName = None →
  executeSearch net now query serverName w = fallbackSearch net now query serverName w.
Proof.
  intros Hsrv. unfold executeSearch. unfold mbind, M_bind, getServer. by rewrite Hsrv.
Qed.

(** X11.  No failover when the requested server works.  For a registered
    server whose health probe and search request are both answered,
    [executeSearch] sends exactly these two requests, records the server as
    healthy, and returns the answer of the search under the requested
    server's name with no failover flag; the alternate is not contacted. *)
Theorem X11_no_failover_when_primary_answers
    net now query serverName srv webUrl bubbleUrl (w : World) probeData data :
  servers w = servers (initializeServers webUrl bubbleUrl) →
  servers w !! serverName = Some srv →
  net (calls w) (HealthGet (url srv +:+ "/health")) = Ok probeData →
  net (calls w ++ [HealthGet (url srv +:+ "/health")])
      (SearchPost (url srv +:+ "/search") query) = Ok data →
  let out := executeSearch net now query serverName w in
  out.1 = mkResult true (Some serverName) (Some data) false None None None (Some now) ∧
  calls out.2 = calls w ++ [HealthGet (url srv +:+ "/health");
                            SearchPost (url srv +:+ "/search") query] ∧
  serverHealth out.2 = <[serverName := mkHealth Healthy None now]> (serverHealth w).
Proof.
  intros Hreg Hsrv Hprobe Hsearch out. unfold out.
  rewrite (executeSearch_registered _ _ _ _ srv webUrl bubbleUrl) by done.
  rewrite Hprobe, Hsearch. cbn [fst snd calls serverHealth health_of_reply].
  by rewrite <-app_assoc.
Qed.

(** X12.  At most three requests, and success means an answered search.
    Whatever server name is requested (inherited property names apart) and
    however the network behaves,
    [executeSearch] sends at most two requests (a health probe, and perhaps
    a search) to the requested server, followed by at most one search
    request to the alternate; the last request sent is always a search
    request, success is reported exactly when that request is answered, and
    the result then carries its answer. *)
Theorem X12_at_most_three_requests
    net now query serverName webUrl bubbleUrl (w : World) :
  serverName ∉ Tools.object_prototype_names →
  servers w = servers (initializeServers webUrl bubbleUrl) →
  let out := executeSearch net now query serverName w in
  ∃ before target,
    calls out.2 = calls w ++ before ++ [SearchPost target query] ∧
    (length before ≤ 2)%nat ∧
    (success out.1 = true ↔
     ∃ data, net (calls w ++ before) (SearchPost target query) = Ok data) ∧
    (∀ data, net (calls w ++ before) (SearchPost target query) = Ok data →
       results out.1 = Some data).
Proof.
  intros _ Hreg out. unfold out.
  destruct (servers w !! serverName) as [srv|] eqn:Hsrv.
  - rewrite (executeSearch_registered _ _ _ _ srv webUrl bubbleUrl) by done.
    set (probe := HealthGet (url srv +:+ "/health")).
    set (search := SearchPost (url srv +:+ "/search") query).
    destruct (net (calls w) probe) as [d|m] eqn:Hprobe.
    + destruct (net (calls w ++ [probe]) search) as [data|m] eqn:Hsearch.
      * exists [probe], (url srv +:+ "/search"). cbn [fst snd calls success results].
        fold search. rewrite <-app_assoc. simpl. rewrite Hsearch.
        repeat split; eauto. by intros ? [= ->].
      * match goal with |- context [fallbackSearch net now query serverName ?w2] =>
          destruct (fallbackSearch_any net now query serverName webUrl bubbleUrl w2 Hreg)
            as (Hcalls & _ & _ & Hres) end.
        cbn [calls] in Hcalls, Hres. rewrite Hcalls, Hres.
        eexists [probe; search], _. rewrite <-!app_assoc. split; [done|].
        split; [simpl; lia|]. simpl.
        case_reply.
        -- repeat split; eauto. by intros ? [= ->].
        -- repeat split; try done. by intros [? ?].
    + match goal with |- context [fallbackSearch net now query serverName ?w1] =>
        destruct (fallbackSearch_any net now query serverName webUrl bubbleUrl w1 Hreg)
          as (Hcalls & _ & _ & Hres) end.
      cbn [calls] in Hcalls, Hres. rewrite Hcalls, Hres.
      eexists [probe], _. rewrite <-!app_assoc. split; [done|].
      split; [simpl; lia|]. simpl.
      case_reply.
      * repeat split; eauto. by intros ? [= ->].
      * repeat split; try done. by intros [? ?].
  - rewrite executeSearch_unregistered by done.
    destruct (fallbackSearch_any net now query serverName webUrl bubbleUrl w Hreg)
      as (Hcalls & _ & _ & Hres).
    rewrite Hcalls, Hres. eexists [], _. rewrite app_nil_r. split; [done|].
    split; [simpl; lia|].
    case_reply.
    + repeat split; eauto. by intros ? [= ->].
    + repeat split; try done. by intros [? ?].
Qed.

(** X13.  A server name that is not registered (and names no inherited
    property) is served by
    "webSearchMCP" without notice of an error.  [executeSearch] sends no
    health probe, records no health, and sends one search request to the
    URL of "webSearchMCP"; when it is answered the result has
    [success = true] and [failover = true] and names the unknown server as
    the failed primary. *)
Theorem X13_unknown_server_falls_back_to_web_search
    net now query serverName webUrl bubbleUrl (w : World) :
  serverName ∉ Tools.object_prototype_names →
  servers w = servers (initializeServers webUrl bubbleUrl) →
  serverName ≠ "webSearchMCP" → serverName ≠ "bubbleSearch" →
  let out := executeSearch net now query serverName w in
  let search := SearchPost (webUrl +:+ "/search") query in
  calls out.2 = calls w ++ [search] ∧
  serverHealth out.2 = serverHealth w ∧
  out.1 = match net (calls w) search with
          | Ok data =>
              mkResult true (Some "webSearchMCP") (Some data) true (Some serverName)
                None None (Some now)
          | Err message => unavailable message
          end.
Proof.
  intros _ Hreg Hweb Hbubble out search. unfold out.
  rewrite executeSearch_unregistered by (rewrite Hreg; by apply registry_other).
  destruct (fallbackSearch_any net now query serverName webUrl bubbleUrl w Hreg)
    as (Hcalls & Hhealth & _ & Hres).
  rewrite bool_decide_eq_false_2 in Hcalls, Hres by done.
  by rewrite Hcalls, Hhealth, Hres.
Qed.

(** X14.  [executeSearch] never reads the recorded health.  Two objects
    with the same registry and the same request history, whatever health
    they have on record, send the same requests and return the same result:
    the decision to fail over rests on the probe of this call alone. *)
Theorem X14_recorded_health_is_not_consulted
    net now query serverName webUrl bubbleUrl (w w' : World) :
  serverName ∉ Tools.object_prototype_names →
  servers w = servers (initializeServers webUrl bubbleUrl) →
  servers w' = servers w →
  calls w' = calls w →
  (executeSearch net now query serverName w').1 = (executeSearch net now query serverName w).1 ∧
  calls (executeSearch net now query serverName w').2
    = calls (executeSearch net now query serverName w).2.
Proof.
  intros _ Hreg Hservers Hcalls.
  assert (Hreg' : servers w' = servers (initializeServers webUrl bubbleUrl)) by congruence.
  destruct (servers w !! serverName) as [srv|] eqn:Hsrv.
  - rewrite (executeSearch_registered _ _ _ _ srv webUrl bubbleUrl w) by done.
    rewrite (executeSearch_registered _ _ _ _ srv webUrl bubbleUrl w') by congruence.
    rewrite Hcalls.
    destruct (net (calls w) _) as [d|m].
    + destruct (net (calls w ++ _) _) as [data|m]; [done|].
      repeat match goal with |- context [fallbackSearch net now query serverName ?w2] =>
        let H := fresh in
        destruct (fallbackSearch_any net now query serverName webUrl bubbleUrl w2)
          as (H & _ & _ & ->); [done|]; rewrite H; clear H end.
      done.
    + repeat match goal with |- context [fallbackSearch net now query serverName ?w2] =>
        let H := fresh in
        destruct (fallbackSearch_any net now query serverName webUrl bubbleUrl w2)
          as (H & _ & _ & ->); [done|]; rewrite H; clear H end.
      done.
  - rewrite !executeSearch_unregistered by congruence.
    destruct (fallbackSearch_any net now query serverName webUrl bubbleUrl w Hreg)
      as (-> & _ & _ & ->).
    destruct (fallbackSearch_any net now query serverName webUrl bubbleUrl w' Hreg')
      as (-> & _ & _ & ->).
    by rewrite Hcalls.
Qed.

End OrchestratorOpsProofs.

(** ** Instances *)

Section ExtraInstances.
Import JsString Semantic RateLimiter QueryCache Tools Demo Demo2.

Lemma X4_live_answer_is_found_under_normalized_key_witness :
  source (searchQuery any_host "latest ai news " "bob" (env_down 100)
            (searchQuery any_host "Latest AI News" "alice" (env_live 0) QueryCache.init).2).1
  = SrcCache.
Proof.
  apply (X4_live_answer_is_found_under_normalized_key any_host
           "Latest AI News" "latest ai news " "alice" (env_live 0) QueryCache.init
           50 50 "bob" (env_down 100)).
  - vm_compute. reflexivity.
  - reflexivity.
  - simpl. lia.
  - simpl. lia.
Defined.

Lemma X5_semantic_index_append_only_witness :
  ∃ more,
    semanticIndex (run any_host [OpSearch "LATEST ai news" "bob" (env_live 400000)] one_entry)
      !! "latest ai news" = Some (["latest ai news"] ++ more).
Proof.
  apply (X5_semantic_index_append_only any_host
           [OpSearch "LATEST ai news" "bob" (env_live 400000)] one_entry).
  vm_compute. reflexivity.
Defined.

Lemma X6_keywords_of_live_answer_are_indexed_witness :
  ∃ l, semanticIndex
         (run any_host [OpGetCached "latest ai news" 5 5]
            (searchQuery any_host "Latest AI News" "alice" (env_live 0) QueryCache.init).2)
         !! "latest ai news" = Some l ∧
       trim (toLowerCase "Latest AI News") ∈ l.
Proof.
  apply (X6_keywords_of_live_answer_are_indexed any_host "Latest AI News" "alice"
           (env_live 0) QueryCache.init [OpGetCached "latest ai news" 5 5]).
  - reflexivity.
  - assert (keywords (analyzeSemantics "Latest AI News") = ["latest ai news"]) as ->
      by reflexivity.
    by apply list_elem_of_singleton.
Defined.

Lemma X7_stale_flag_and_freshness_boundary_witness :
  ∃ hit, (getCachedResults "latest ai news" 300000 300000 one_entry).1 = Some hit ∧
         isStale hit = false ∧
         lookup_fresh (trim (toLowerCase "latest ai news")) 300000 (queryCache one_entry) = None.
Proof.
  assert (Hget : ∃ entry, cache_get (trim (toLowerCase "latest ai news"))
                            (queryCache one_entry) = Some entry ∧ timestamp entry = 0).
  { eexists. split; [vm_compute; reflexivity|reflexivity]. }
  destruct Hget as (entry & Hget & Ht).
  destruct (X7_stale_flag_and_freshness_boundary "latest ai news" 300000 one_entry entry Hget)
    as (hit & Hhit & _ & _ & _ & Hboth).
  exists hit. split; [exact Hhit|]. apply Hboth. rewrite Ht. lia.
Defined.

Lemma X9_semantic_search_is_not_rate_limited_witness :
  ∃ result,
    (handler any_host
       (mkRequest "POST"
          (Some (mkParams (Some "semantic_search")
                          (Some (mkInput (Some "rocq prover") None)) (Some "alice"))))
       (request_env 101) exhausted).1
    = Some (mkHttp 200 (Success "semantic_search" result 101)).
Proof.
  destruct (X9_semantic_search_is_not_rate_limited any_host "rocq prover" "alice"
              (request_env 101) exhausted) as (_ & _ & Hserved & _).
  - compute_done.
  - vm_compute. reflexivity.
  - eexists. exact Hserved.
Defined.

Lemma X10_handler_status_codes_witness :
  ∃ resp,
    (handler any_host (mkRequest "POST" (Some (mkParams (Some "constructor") None None)))
       (request_env 5) exhausted).1 = Some resp ∧
    resp = mkHttp 500 (Failure "tool.execute is not a function" "constructor").
Proof.
  destruct (X10_handler_status_codes any_host
              (mkRequest "POST" (Some (mkParams (Some "constructor") None None)))
              (mkParams (Some "constructor") None None) (request_env 5) exhausted)
    as (resp & Hresp & _ & _ & _ & Hproto & _).
  - done.
  - reflexivity.
  - exists resp. split; [exact Hresp|]. apply Hproto.
    exists "constructor". split; [reflexivity|compute_done].
Defined.

Lemma X8_web_search_charges_quota_first_witness :
  store (web_search any_host (mkInput (Some "rocq prover") None) "alice" 101
           (env_live 101) exhausted).2 = store exhausted.
Proof.
  destruct (X8_web_search_charges_quota_first any_host (mkInput (Some "rocq prover") None)
              "alice" 101 (env_live 101) exhausted) as [_ Hdenied].
  - compute_done.
  - apply Hdenied. compute_done.
Defined.

End ExtraInstances.

Section OrchestratorInstances.
Import Orchestrator OrchestratorOps Demo Demo2.

Lemma X11_no_failover_when_primary_answers_witness :
  (executeSearch all_up 7 "rocq" "bubbleSearch" fresh_world).1
  = mkResult true (Some "bubbleSearch") (Some "[]") false None None None (Some 7).
Proof.
  apply (X11_no_failover_when_primary_answers all_up 7 "rocq" "bubbleSearch"
           (mkServer "bubble-search" "rest" "http://localhost:3002" "npm run dev" 2
              ["search"; "free-tier"])
           "http://localhost:3001" "http://localhost:3002" fresh_world "[]" "[]");
    reflexivity.
Defined.

Lemma X12_at_most_three_requests_witness :
  ∃ before target,
    calls (executeSearch only_bubble 7 "rocq" "webSearchMCP" fresh_world).2
      = calls fresh_world ++ before ++ [SearchPost target "rocq"] ∧
    (length before ≤ 2)%nat.
Proof.
  destruct (X12_at_most_three_requests only_bubble 7 "rocq" "webSearchMCP"
              "http://localhost:3001" "http://localhost:3002" fresh_world)
    as (before & target & Hcalls & Hlen & _).
  - compute_done.
  - reflexivity.
  - by exists before, target.
Defined.

Lemma X13_unknown_server_falls_back_to_web_search_witness :
  (executeSearch all_up 7 "rocq" "tavily" fresh_world).1
  = mkResult true (Some "webSearchMCP") (Some "[]") true (Some "tavily") None None (Some 7).
Proof.
  apply (X13_unknown_server_falls_back_to_web_search all_up 7 "rocq" "tavily"
           "http://localhost:3001" "http://localhost:3002" fresh_world);
    [compute_done|done..].
Defined.

Lemma X14_recorded_health_is_not_consulted_witness :
  (executeSearch all_up 7 "rocq" "webSearchMCP" stale_world).1
  = (executeSearch all_up 7 "rocq" "webSearchMCP" fresh_world).1.
Proof.
  apply (X14_recorded_health_is_not_consulted all_up 7 "rocq" "webSearchMCP"
           "http://localhost:3001" "http://localhost:3002" fresh_world stale_world);
    [compute_done|reflexivity..].
Defined.

End OrchestratorInstances.
